(** * mathlib: a shallow embedding of [mathlib.c] and its specification

    The library is a handful of leaf functions over C [int], [double],
    NUL-terminated [char] buffers, a [Point] struct, a function pointer and
    [int] arrays.  Each function is embedded below as it is written in
    [src/_jsTest/native-libraries/mathlib/mathlib.c]:

    - [int] is a [Z] kept in the 32-bit two's-complement range by [wrap_int]:
      arithmetic that leaves the range wraps around, as the specification
      has it, and so does the conversion of a [size_t] count to [int];
    - [double] is an IEEE-754 binary64 value, [spec_float] at precision 53
      and maximal exponent 1024, with round-to-nearest-even operations;
    - a pointer is [NULL] or [Ptr] to the current contents of the storage it
      designates; a function that writes through a pointer returns the new
      contents;
    - reading outside the storage is undefined behaviour, [None]. *)

From Stdlib Require Import ZArith Lia List Bool Ascii String.
From Stdlib Require Import QArith Qpower Qabs Lqa.
From Stdlib Require Import Floats.SpecFloat.
From stdpp Require Import base tactics option list.

Local Open Scope Z_scope.

(** ** Machine integers *)

Definition INT_MIN : Z := - 2 ^ 31.
Definition INT_MAX : Z := 2 ^ 31 - 1.

Definition in_int (z : Z) : Prop := INT_MIN <= z <= INT_MAX.

(** Two's-complement reduction of a mathematical integer to [int]. *)
Definition wrap_int (z : Z) : Z := (z + 2 ^ 31) mod 2 ^ 32 - 2 ^ 31.

(** [int add(int a, int b) { return a + b; }] *)
Definition add (a b : Z) : Z := wrap_int (a + b).

(** [int subtract(int a, int b) { return a - b; }] *)
Definition subtract (a b : Z) : Z := wrap_int (a - b).

(** ** Pointers and loops *)

Inductive ptr (A : Type) : Type :=
  | NULL : ptr A
  | Ptr (target : A) : ptr A.
Arguments NULL {A}.
Arguments Ptr {A} target.

(** [for (int i = start; i < bound; i++) body], unrolled over the number of
    trips it makes; [body] may read out of bounds, which aborts the run. *)
Fixpoint for_loop {St : Type} (trips : nat) (i : Z)
    (body : Z -> St -> option St) (s : St) : option St :=
  match trips with
  | O => Some s
  | S t => s' ← body i s; for_loop t (i + 1) body s'
  end.

Definition for_upto {St : Type} (bound : Z)
    (body : Z -> St -> option St) (s : St) : option St :=
  for_loop (Z.to_nat bound) 0 body s.

(** Array and buffer cells are addressed by an [int]; an index outside the
    storage is an out-of-bounds access. *)
Definition load {A : Type} (a : list A) (i : Z) : option A :=
  if i <? 0 then None else a !! Z.to_nat i.

Definition store {A : Type} (a : list A) (i : Z) (v : A) : option (list A) :=
  if (0 <=? i) && (i <? Z.of_nat (length a)) then Some (<[Z.to_nat i := v]> a)
  else None.

(** ** Double-precision arithmetic

    [double] is IEEE-754 binary64.  The operators are the ones of the
    standard library's executable specification of floating-point
    arithmetic, each rounding its exact result to nearest, ties to even.
    That specification has a single NaN: the sign and the payload of a NaN
    are not modelled, so equality of two doubles is equality of their bits
    only when they are not NaN. *)

Definition double : Type := spec_float.

Definition b64_prec : Z := 53.
Definition b64_emax : Z := 1024.

Definition fadd : double -> double -> double := SFadd b64_prec b64_emax.
Definition fsub : double -> double -> double := SFsub b64_prec b64_emax.
Definition fmul : double -> double -> double := SFmul b64_prec b64_emax.
Definition fdiv : double -> double -> double := SFdiv b64_prec b64_emax.
Definition fsqrt : double -> double := SFsqrt b64_prec b64_emax.

(** The C comparison [a == b]: false on NaN, true on zeros of either sign. *)
Definition feqb : double -> double -> bool := SFeqb.

(** The literal [0.0]. *)
Definition pzero : double := S754_zero false.

(** Neither NaN nor an infinity. *)
Definition is_finite (a : double) : bool :=
  match a with
  | S754_zero _ | S754_finite _ _ _ => true
  | S754_infinity _ | S754_nan => false
  end.

(** A [spec_float] that is the image of some 64-bit pattern. *)
Definition is_double (a : double) : bool := valid_binary b64_prec b64_emax a.

(** The double nearest to an integer, as a decimal literal such as [3.0]
    denotes it. *)
Definition double_of_Z (z : Z) : double :=
  binary_normalize b64_prec b64_emax z 0 false.

(** The double nearest to [m * 2^e]. *)
Definition double_of_scaled (m e : Z) : double :=
  binary_normalize b64_prec b64_emax m e false.

(** [double multiply_double(double a, double b) { return a * b; }] *)
Definition multiply_double (a b : double) : double := fmul a b.

(** [double divide_double(double a, double b)] *)
Definition divide_double (a b : double) : double :=
  if feqb b pzero then pzero else fdiv a b.

(** ** Strings *)

Definition NUL : ascii := Ascii.zero.

(** [const char* get_version()] *)
Definition get_version : string := "MathLib v1.0.0"%string.

(** [size_t strlen(const char* s)]: the number of characters before the first
    terminator of the storage [str]; a storage without terminator is read
    past its end.  The storage is smaller than the address space, so the
    [size_t] count is kept as a [Z] without reduction. *)
Fixpoint strlen (str : list ascii) : option Z :=
  match str with
  | [] => None
  | c :: rest =>
      if Ascii.eqb c NUL then Some 0 else n ← strlen rest; Some (n + 1)
  end.

(** [int string_length(const char* str)] *)
Definition string_length (str : ptr (list ascii)) : option Z :=
  match str with
  | NULL => Some 0
  | Ptr s => n ← strlen s; Some (wrap_int n)
  end.

(** The body of the loop of [reverse_string]:
    [temp = str[i]; str[i] = str[len - 1 - i]; str[len - 1 - i] = temp]. *)
Definition reverse_step (len : Z) (i : Z) (str : list ascii)
    : option (list ascii) :=
  temp ← load str i;
  c ← load str (len - 1 - i);
  str1 ← store str i c;
  store str1 (len - 1 - i) temp.

(** [void reverse_string(char* str)]: the result is the storage after the
    call.  [int len = strlen(str)] converts the [size_t] count to [int];
    [len / 2] is C's division, which truncates. *)
Definition reverse_string (str : ptr (list ascii))
    : option (ptr (list ascii)) :=
  match str with
  | NULL => Some NULL
  | Ptr s =>
      c0 ← load s 0;
      if Ascii.eqb c0 NUL then Some (Ptr s)
      else
        n ← strlen s;
        let len := wrap_int n in
        s' ← for_upto (Z.quot len 2) (reverse_step len) s;
        Some (Ptr s')
  end.

(** ** Struct operations *)

Record Point : Type := mkPoint { x : double; y : double }.

(** [double distance(Point* p1, Point* p2)] *)
Definition distance (p1 p2 : ptr Point) : double :=
  match p1, p2 with
  | Ptr q1, Ptr q2 =>
      let dx := fsub (x q2) (x q1) in
      let dy := fsub (y q2) (y q1) in
      fsqrt (fadd (fmul dx dx) (fmul dy dy))
  | _, _ => pzero
  end.

(** [void translate_point(Point* p, double dx, double dy)] *)
Definition translate_point (p : ptr Point) (dx dy : double) : ptr Point :=
  match p with
  | NULL => NULL
  | Ptr q => Ptr {| x := fadd (x q) dx; y := fadd (y q) dy |}
  end.

(** ** Callbacks

    [math_callback] is a pointer to a function [int f(int a, int b)].  The
    callee is code of the caller: besides returning an [int] it may read and
    change the caller's state, so a call maps a state [W] to a result and a
    new state. *)

Definition math_callback (W : Type) : Type := Z -> Z -> W -> Z * W.

(** [int apply_operation(int a, int b, math_callback callback)] *)
Definition apply_operation {W : Type} (a b : Z)
    (callback : ptr (math_callback W)) (w : W) : Z * W :=
  match callback with
  | NULL => (0, w)
  | Ptr f => f a b w
  end.

(** A callback without side effect, such as [add]. *)
Definition pure_callback {W : Type} (f : Z -> Z -> Z) : math_callback W :=
  fun a b w => (f a b, w).

(** Instrumentation: the callback [f] with every invocation and its
    arguments appended to a log kept beside the caller's state. *)
Definition logged {W : Type} (f : math_callback W)
    : math_callback (list (Z * Z) * W) :=
  fun a b '(log, w) => let '(r, w') := f a b w in (r, (log ++ [(a, b)], w')).

(** ** Array operations *)

(** [int sum_array(const int* arr, int size)] *)
Definition sum_array (arr : ptr (list Z)) (size : Z) : option Z :=
  match arr with
  | NULL => Some 0
  | Ptr a =>
      if size <=? 0 then Some 0
      else
        for_upto size (fun i sum => e ← load a i; Some (wrap_int (sum + e))) 0
  end.

(** [void double_array(int* arr, int size)]: the result is the array after
    the call. *)
Definition double_array (arr : ptr (list Z)) (size : Z)
    : option (ptr (list Z)) :=
  match arr with
  | NULL => Some NULL
  | Ptr a =>
      if size <=? 0 then Some (Ptr a)
      else
        a' ← for_upto size
               (fun i a => e ← load a i; store a i (wrap_int (e * 2))) a;
        Some (Ptr a')
  end.

(** ** Specification side

    What the specification calls the Euclidean distance is a real number.
    The definitions below give the exact value of a finite double as a
    rational and say when a double is that distance up to a relative
    tolerance; they are compared with [distance], not used by it. *)

Definition exact (a : double) : option Q :=
  match a with
  | S754_zero _ => Some 0%Q
  | S754_finite s m e => Some (inject_Z (cond_Zopp s (Zpos m)) * 2 ^ e)%Q
  | S754_infinity _ | S754_nan => None
  end.

(** The square of the Euclidean distance between two points with finite
    coordinates, without rounding, as a reduced fraction. *)
Definition spec_euclid_sq (p1 p2 : Point) : option Q :=
  x1 ← exact (x p1); y1 ← exact (y p1);
  x2 ← exact (x p2); y2 ← exact (y p2);
  Some (Qred ((x2 - x1) ^ 2 + (y2 - y1) ^ 2))%Q.

(** [d] is finite, not negative, and within the relative tolerance [tol] of
    the Euclidean distance between [p1] and [p2]. *)
Definition spec_euclidean_within (tol : Q) (p1 p2 : Point) (d : double)
    : bool :=
  match spec_euclid_sq p1 p2, exact d with
  | Some D, Some v =>
      Qle_bool 0 v && Qle_bool ((1 - tol) ^ 2 * D) (v ^ 2)
                   && Qle_bool (v ^ 2) ((1 + tol) ^ 2 * D)
  | _, _ => false
  end.

(** A list with its first [k] elements in reverse order. *)
Definition reversed_prefix {A : Type} (k : nat) (l : list A) : list A :=
  reverse (take k l) ++ drop k l.

(** The characters of a string literal, as they lie in a buffer. *)
Definition chars (s : string) : list ascii := list_ascii_of_string s.

(** The mathematical sum of a list of integers. *)
Definition Zsum (l : list Z) : Z := foldr Z.add 0 l.

(** Sign classes of doubles: [signed s a] when [a] is a zero, a finite
    number or an infinity of sign [s]. *)
Definition signed (s : bool) (a : double) : bool :=
  match a with
  | S754_zero s' | S754_infinity s' | S754_finite s' _ _ => eqb s s'
  | S754_nan => false
  end.

Definition is_nan (a : double) : bool :=
  match a with S754_nan => true | _ => false end.

(** Further classes of doubles, and the negation [-a]. *)
Definition is_zero (a : double) : bool :=
  match a with S754_zero _ => true | _ => false end.

Definition is_inf (a : double) : bool :=
  match a with S754_infinity _ => true | _ => false end.

Definition fopp : double -> double := SFopp.

(** *** Accuracy

    [pow2 e] is [2^e] and [mag m e] the magnitude [m * 2^e] of a finite
    double.  [close v V] says that [V] is [v] up to one relative rounding
    error [u52 = 2^-52], and [within l h v V] that [V] lies between [l * v]
    and [h * v]. *)

Definition pow2 (e : Z) : Q := (2 ^ e)%Q.

Definition mag (m : positive) (e : Z) : Q := (inject_Z (Z.pos m) * pow2 e)%Q.

Definition u52 : Q := 1 # 4503599627370496.

Definition close (v V : Q) : Prop :=
  (inject_Z (2 ^ 52 - 1) * v <= inject_Z (2 ^ 52) * V /\
   inject_Z (2 ^ 52) * V <= inject_Z (2 ^ 52 + 1) * v)%Q.

Definition within (l h v V : Q) : Prop := (l * v <= V /\ V <= h * v)%Q.

Definition c3l : Q := (1 - u52) * (1 - u52) * (1 - u52).
Definition c3h : Q := (1 + u52) * (1 + u52) * (1 + u52).

(** A magnitude that is zero or lies between [2^-500] and [2^500]: its
    square neither overflows nor underflows. *)
Definition in_range (v : Q) : Prop :=
  (v == 0)%Q \/ (pow2 (-500) <= v /\ v <= pow2 500)%Q.

(** The two points differ, in each coordinate, by nothing or by an amount
    of magnitude between [2^-500] and [2^500] (their coordinates are
    finite).  This is the range of the specification's "Euclidean distance
    up to rounding". *)
Definition safe_difference (a b : double) : bool :=
  match exact a, exact b with
  | Some va, Some vb =>
      Qeq_bool (Qabs (va - vb)) 0
      || (Qle_bool (2 ^ (-500)) (Qabs (va - vb))
          && Qle_bool (Qabs (va - vb)) (2 ^ 500))
  | _, _ => false
  end.

Definition safe_points (p1 p2 : Point) : bool :=
  safe_difference (x p2) (x p1) && safe_difference (y p2) (y p1).

Definition is_double_point (p : Point) : bool :=
  is_double (x p) && is_double (y p).

(** What the steps of [distance] compute from exact quantities: the
    rounded difference [d] of magnitude about [v], the rounded square of a
    difference of magnitude [v], and the rounded sum of squares [D]. *)
Definition fl_of (elo ehi : Z) (v : Q) (d : double) : Prop :=
  ((v == 0)%Q /\ is_zero d = true) \/
  exists s m e, d = S754_finite s m e /\ Z.pos (digits2_pos m) = 53 /\
                elo <= e <= ehi /\ close v (mag m e).

Definition sq_of (v : Q) (d : double) : Prop :=
  ((v == 0)%Q /\ d = S754_zero false) \/
  exists m e, d = S754_finite false m e /\ Z.pos (digits2_pos m) = 53 /\
              -1054 <= e <= 952 /\
              within ((1 - u52) * (1 - u52) * (1 - u52))
                     ((1 + u52) * (1 + u52) * (1 + u52)) (v * v) (mag m e).

Definition sum_of (D : Q) (s : double) : Prop :=
  ((D == 0)%Q /\ s = S754_zero false) \/
  exists m e, s = S754_finite false m e /\ Z.pos (digits2_pos m) = 53 /\
              -1054 <= e <= 954 /\
              within (c3l * (1 - u52)) (c3h * (1 + u52)) D (mag m e).

(** A coordinate [c] and what adding [0.0] makes of it: NaN stays NaN,
    [-0.0] becomes [+0.0], every other double is unchanged. *)
Definition zero_shifted (c c' : double) : Prop :=
  match c with
  | S754_nan => is_nan c' = true
  | S754_zero true => c' = pzero
  | _ => c' = c
  end.

(** ** Inputs of the examples *)

Definition origin : Point := mkPoint pzero pzero.

(** The points [(2^-600, 0)] and [(2^600, 0)]. *)
Definition tiny_point : Point := mkPoint (double_of_scaled 1 (-600)) pzero.
Definition huge_point : Point := mkPoint (double_of_scaled 1 600) pzero.

(** A text of [2^31] characters, one more than the largest [int]. *)
Definition long_text : list ascii := replicate (Z.to_nat (2 ^ 31)) "a"%char.

(** A word of [2^31] characters: [2^31 - 1] times ['a'], then ['b']. *)
Definition long_word : list ascii :=
  replicate (Z.to_nat INT_MAX) "a"%char ++ ["b"%char].

(** A word of [2^32 + 2] characters: ["ab"], then [2^32] times ['c']. *)
Definition wrapped_word : list ascii :=
  "a"%char :: "b"%char :: replicate (Z.to_nat (2 ^ 32)) "c"%char.

(** Closes [NUL ∉ l] for a list [l] of explicit characters. *)
Ltac no_nul :=
  let H := fresh "H" in
  intros H;
  repeat (apply elem_of_cons in H as [H|H]; [discriminate H|]);
  now apply elem_of_nil in H.

(** ** Theorems *)

Section IntArith.

Lemma wrap_int_range z : in_int (wrap_int z).
Proof.
  unfold in_int, wrap_int, INT_MIN, INT_MAX.
  pose proof (Z.mod_pos_bound (z + 2 ^ 31) (2 ^ 32) ltac:(lia)). lia.
Qed.

Lemma wrap_int_id z : in_int z -> wrap_int z = z.
Proof.
  unfold in_int, wrap_int, INT_MIN, INT_MAX. intros Hz.
  rewrite Z.mod_small by lia. lia.
Qed.

Lemma wrap_int_eqm z : (wrap_int z) mod 2 ^ 32 = z mod 2 ^ 32.
Proof.
  unfold wrap_int.
  rewrite Zminus_mod_idemp_l. f_equal. lia.
Qed.

Lemma wrap_int_congr z1 z2 :
  z1 mod 2 ^ 32 = z2 mod 2 ^ 32 -> wrap_int z1 = wrap_int z2.
Proof.
  intros H. unfold wrap_int.
  rewrite <- (Zplus_mod_idemp_l z1), <- (Zplus_mod_idemp_l z2), H. reflexivity.
Qed.

Lemma wrap_int_add_l z1 z2 : wrap_int (wrap_int z1 + z2) = wrap_int (z1 + z2).
Proof.
  apply wrap_int_congr.
  rewrite <- Zplus_mod_idemp_l, wrap_int_eqm, Zplus_mod_idemp_l. reflexivity.
Qed.

Lemma wrap_int_sub_l z1 z2 : wrap_int (wrap_int z1 - z2) = wrap_int (z1 - z2).
Proof.
  apply wrap_int_congr.
  rewrite <- Zminus_mod_idemp_l, wrap_int_eqm, Zminus_mod_idemp_l. reflexivity.
Qed.

End IntArith.

(** C2: for 32-bit [a] and [b], [subtract (add a b) b = a], the sum and the
    difference both wrapping modulo 2^32. *)
Theorem subtract_add_cancel (a b : Z) :
  in_int a -> in_int b -> subtract (add a b) b = a.
Proof.
  intros Ha _. unfold subtract, add.
  rewrite wrap_int_sub_l.
  replace (a + b - b) with a by lia.
  apply wrap_int_id, Ha.
Qed.

Lemma subtract_add_cancel_witness :
  in_int INT_MAX /\ in_int 1 /\ add INT_MAX 1 = INT_MIN /\
  subtract (add INT_MAX 1) 1 = INT_MAX.
Proof.
  assert (H1 : in_int INT_MAX) by (unfold in_int, INT_MIN, INT_MAX; lia).
  assert (H2 : in_int 1) by (unfold in_int, INT_MIN, INT_MAX; lia).
  split; [exact H1|]. split; [exact H2|]. split; [reflexivity|].
  exact (subtract_add_cancel INT_MAX 1 H1 H2).
Defined.

(** ** Double-precision arithmetic *)

Section Float.

(** Rounding never turns a non-negative mantissa into NaN and keeps the
    sign it is given. *)
Lemma shr_1_nonneg mrs : 0 <= shr_m mrs -> 0 <= shr_m (shr_1 mrs).
Proof.
  destruct mrs as [m r s]. simpl.
  destruct m as [|[p|p|]|[p|p|]]; simpl; lia.
Qed.

Lemma iter_pos_inv {A : Type} (P : A -> Prop) (f : A -> A) :
  (forall a, P a -> P (f a)) -> forall n a, P a -> P (SpecFloat.iter_pos f n a).
Proof.
  intros Hf. induction n as [n IH|n IH|]; simpl; intros a Ha; auto.
Qed.

Lemma shr_nonneg mrs e n : 0 <= shr_m mrs -> 0 <= shr_m (fst (shr mrs e n)).
Proof.
  intros H. destruct n as [|p|p]; simpl; try assumption.
  apply (iter_pos_inv (fun r => 0 <= shr_m r)); auto using shr_1_nonneg.
Qed.

Lemma shr_record_of_loc_m m l : shr_m (shr_record_of_loc m l) = m.
Proof. destruct l as [|[]]; reflexivity. Qed.

Lemma shr_fexp_nonneg m e l :
  0 <= m -> 0 <= shr_m (fst (shr_fexp b64_prec b64_emax m e l)).
Proof.
  intros H. unfold shr_fexp. apply shr_nonneg.
  rewrite shr_record_of_loc_m. exact H.
Qed.

Lemma round_nearest_even_nonneg m l : 0 <= m -> 0 <= round_nearest_even m l.
Proof.
  intros H. destruct l as [|[]]; simpl; try lia.
  destruct (Z.even m); lia.
Qed.

Lemma binary_round_aux_signed sx mx ex lx :
  0 <= mx ->
  signed sx (binary_round_aux b64_prec b64_emax sx mx ex lx) = true.
Proof.
  intros H. unfold binary_round_aux.
  pose proof (shr_fexp_nonneg mx ex lx H) as H1.
  destruct (shr_fexp b64_prec b64_emax mx ex lx) as [mrs' e']. simpl in H1.
  pose proof (round_nearest_even_nonneg _ (loc_of_shr_record mrs') H1) as H2.
  pose proof (shr_fexp_nonneg _ e' loc_Exact H2) as H3.
  destruct (shr_fexp b64_prec b64_emax _ e' loc_Exact) as [mrs'' e''].
  simpl in H3.
  destruct (shr_m mrs'') as [|m|m]; simpl.
  - apply eqb_reflx.
  - destruct (e'' <=? b64_emax - b64_prec); simpl; apply eqb_reflx.
  - lia.
Qed.

Lemma binary_round_signed sx mx ex :
  signed sx (binary_round b64_prec b64_emax sx mx ex) = true.
Proof.
  unfold binary_round.
  destruct (shl_align mx ex _) as [mz ez].
  apply binary_round_aux_signed. lia.
Qed.

Lemma binary_normalize_not_nan m e sz :
  is_nan (binary_normalize b64_prec b64_emax m e sz) = false.
Proof.
  destruct m as [|p|p]; simpl; [reflexivity| |].
  - pose proof (binary_round_signed false p e) as H.
    destruct (binary_round _ _ false p e); simpl in *; congruence.
  - pose proof (binary_round_signed true p e) as H.
    destruct (binary_round _ _ true p e); simpl in *; congruence.
Qed.

(** The difference of two finite doubles is never NaN. *)
Lemma fsub_finite_not_nan a b :
  is_finite a = true -> is_finite b = true -> is_nan (fsub a b) = false.
Proof.
  destruct a as [sa|sa| |sa ma ea], b as [sb|sb| |sb mb eb];
    simpl; try discriminate; intros _ _; try reflexivity.
  - destruct sa, sb; reflexivity.
  - apply binary_normalize_not_nan.
Qed.

(** The square of a double that is not NaN is [+0], positive or [+inf]. *)
Lemma fmul_square_signed a :
  is_nan a = false -> signed false (fmul a a) = true.
Proof.
  destruct a as [s|s| |s m e]; simpl; try discriminate; intros _.
  - destruct s; reflexivity.
  - destruct s; reflexivity.
  - replace (xorb s s) with false by (destruct s; reflexivity).
    apply binary_round_aux_signed. lia.
Qed.

Lemma fadd_signed a b :
  signed false a = true -> signed false b = true ->
  signed false (fadd a b) = true.
Proof.
  destruct a as [[]|[]| |[] ma ea], b as [[]|[]| |[] mb eb];
    simpl; try discriminate; intros _ _; try reflexivity.
  destruct (shl_align ma ea _) as [m1 e1], (shl_align mb eb _) as [m2 e2].
  simpl. apply binary_round_signed.
Qed.

Lemma fsqrt_signed a : signed false a = true -> signed false (fsqrt a) = true.
Proof.
  destruct a as [[]|[]| |[] m e]; simpl; try discriminate; intros _;
    try reflexivity.
  unfold SFsqrt_core_binary.
  set (m' := match _ - _ with 0 => Z.pos m | Z.pos _ => _ | Z.neg _ => 0 end).
  assert (Hm' : 0 <= m').
  { subst m'. destruct (_ - _); try lia. apply Z.shiftl_nonneg. lia. }
  pose proof (Z.sqrtrem_spec m' Hm') as Hs.
  destruct (Z.sqrtrem m') as [q r].
  apply binary_round_aux_signed. lia.
Qed.

Lemma fsub_diag a : is_finite a = true -> fsub a a = pzero.
Proof.
  destruct a as [s|s| |s m e]; simpl; try discriminate; intros _.
  - destruct s; reflexivity.
  - rewrite Z.min_id. unfold shl_align. rewrite Z.sub_diag. simpl.
    rewrite ?Z.sub_diag. reflexivity.
Qed.

End Float.

(** ** Accuracy of [distance]

    Each operation of [distance] rounds once.  Where no intermediate result
    leaves the range of normal doubles, a rounding moves a value by a
    relative [2^-52] at most; the errors of the difference, the square, the
    sum and the square root then add up to less than [2^-50]. *)

Section Accuracy.

Lemma digits2_pos_size p : digits2_pos p = Pos.size p.
Proof. induction p; simpl; congruence. Qed.

Lemma digits_bounds (p : positive) :
  2 ^ (Z.pos (digits2_pos p) - 1) <= Z.pos p < 2 ^ Z.pos (digits2_pos p).
Proof.
  rewrite digits2_pos_size.
  pose proof (Pos.size_gt p) as Hgt. pose proof (Pos.size_le p) as Hle.
  apply Pos2Z.pos_lt_pos in Hgt. apply Pos2Z.pos_le_pos in Hle.
  rewrite Pos2Z.inj_pow in Hgt, Hle.
  split; [|exact Hgt].
  replace (Z.pos (Pos.size p)) with (1 + (Z.pos (Pos.size p) - 1)) in Hle
    by lia.
  rewrite Z.pow_add_r, Z.pow_1_r in Hle by lia. lia.
Qed.

Lemma digits_unique (p : positive) (d : Z) :
  2 ^ (d - 1) <= Z.pos p < 2 ^ d -> Z.pos (digits2_pos p) = d.
Proof.
  intros [Hlo Hhi]. destruct (digits_bounds p) as [Hlo' Hhi'].
  assert (Hd : 0 < d).
  { destruct (Z.lt_ge_cases 0 d) as [H|H]; [exact H|].
    destruct (Z.eq_dec d 0) as [->|Hne].
    - simpl in Hhi. lia.
    - rewrite Z.pow_neg_r in Hhi by lia. lia. }
  assert (H1 : Z.pos (digits2_pos p) - 1 < d).
  { apply (Z.pow_lt_mono_r_iff 2); lia. }
  assert (H2 : d - 1 < Z.pos (digits2_pos p)).
  { apply (Z.pow_lt_mono_r_iff 2); lia. }
  lia.
Qed.

Lemma shr_1_m mrs : 0 <= shr_m mrs -> shr_m (shr_1 mrs) = shr_m mrs / 2.
Proof.
  destruct mrs as [m r s]. simpl. intros Hm.
  destruct m as [|[p|p|]|p]; cbn [shr_m]; try lia; try reflexivity.
  - apply (Z.div_unique (Z.pos p~1) 2 (Z.pos p) 1); lia.
  - apply (Z.div_unique (Z.pos p~0) 2 (Z.pos p) 0); lia.
Qed.

Lemma pow2_double (n : positive) :
  2 ^ Z.pos n~0 = 2 ^ Z.pos n * 2 ^ Z.pos n /\
  2 ^ Z.pos n~1 = 2 * (2 ^ Z.pos n * 2 ^ Z.pos n).
Proof.
  rewrite <- Z.pow_add_r by lia. split.
  - f_equal. lia.
  - rewrite <- Z.pow_succ_r by lia. f_equal. lia.
Qed.

Lemma iter_shr_1_m (n : positive) mrs :
  0 <= shr_m mrs ->
  0 <= shr_m (SpecFloat.iter_pos shr_1 n mrs) /\
  shr_m (SpecFloat.iter_pos shr_1 n mrs) = shr_m mrs / 2 ^ Z.pos n.
Proof.
  revert mrs. induction n as [n IH|n IH|]; intros mrs Hm; simpl.
  - pose proof (shr_1_nonneg mrs Hm) as H1.
    destruct (IH _ H1) as [H2 E2]. destruct (IH _ H2) as [H3 E3].
    split; [exact H3|].
    rewrite E3, E2, shr_1_m by exact Hm.
    rewrite (proj2 (pow2_double n)).
    pose proof (Z.pow_pos_nonneg 2 (Z.pos n) ltac:(lia) ltac:(lia)).
    rewrite !Z.div_div by lia. reflexivity.
  - destruct (IH _ Hm) as [H2 E2]. destruct (IH _ H2) as [H3 E3].
    split; [exact H3|].
    rewrite E3, E2, (proj1 (pow2_double n)).
    pose proof (Z.pow_pos_nonneg 2 (Z.pos n) ltac:(lia) ltac:(lia)).
    rewrite !Z.div_div by lia. reflexivity.
  - split; [now apply shr_1_nonneg|]. now rewrite shr_1_m.
Qed.

Lemma round_nearest_even_range m l :
  m <= round_nearest_even m l <= m + 1.
Proof.
  destruct l as [|[]]; simpl; try lia. destruct (Z.even m); lia.
Qed.

Lemma fexp_normal (z : Z) :
  -1021 <= z -> fexp b64_prec b64_emax z = z - 53.
Proof. intros H. unfold fexp, emin, b64_prec, b64_emax. lia. Qed.

Lemma shr_spec (m : Z) (l : location) (e n : Z) :
  0 <= m -> 0 <= n ->
  exists mrs,
    shr (shr_record_of_loc m l) e n = (mrs, e + n) /\
    shr_m mrs = m / 2 ^ n /\
    (n = 0 -> loc_of_shr_record mrs = l).
Proof.
  intros Hm Hn. destruct n as [|p|p]; [| |lia].
  - exists (shr_record_of_loc m l). cbn [shr]. rewrite Z.add_0_r.
    split; [reflexivity|]. split.
    + rewrite shr_record_of_loc_m, Z.pow_0_r, Z.div_1_r. reflexivity.
    + intros _. now destruct l as [|[]].
  - eexists. cbn [shr]. split; [reflexivity|]. split; [|lia].
    destruct (iter_shr_1_m p (shr_record_of_loc m l)) as [_ ->];
      rewrite shr_record_of_loc_m; [exact Hm|reflexivity].
Qed.

Lemma binary_round_aux_normal sx (mx : positive) ex lx :
  53 <= Z.pos (digits2_pos mx) ->
  -1074 <= ex + (Z.pos (digits2_pos mx) - 53) < 971 ->
  exists m e,
    binary_round_aux b64_prec b64_emax sx (Z.pos mx) ex lx
      = S754_finite sx m e /\
    Z.pos (digits2_pos m) = 53 /\
    ex + (Z.pos (digits2_pos mx) - 53) <= e
      <= ex + (Z.pos (digits2_pos mx) - 53) + 1 /\
    (2 ^ 52 - 1) * Z.pos mx <= 2 ^ 52 * (Z.pos m * 2 ^ (e - ex))
      <= (2 ^ 52 + 1) * Z.pos mx.
Proof.
  set (d := Z.pos (digits2_pos mx)). intros Hd He.
  set (n := d - 53) in *.
  destruct (digits_bounds mx) as [Hlo Hhi]. fold d in Hlo, Hhi.
  assert (HP : 0 < 2 ^ n) by (apply Z.pow_pos_nonneg; lia).
  assert (Hlo' : 2 ^ 52 * 2 ^ n <= Z.pos mx).
  { rewrite <- Z.pow_add_r by lia. now replace (52 + n) with (d - 1) by lia. }
  assert (Hhi' : Z.pos mx < 2 ^ 53 * 2 ^ n).
  { rewrite <- Z.pow_add_r by lia. now replace (53 + n) with d by lia. }
  unfold binary_round_aux, shr_fexp. cbn [Zdigits2]. fold d.
  rewrite fexp_normal by lia.
  replace (d + ex - 53 - ex) with n by lia.
  destruct (shr_spec (Z.pos mx) lx ex n) as (mrs1 & -> & Hm1 & _); try lia.
  set (m1 := shr_m mrs1) in *.
  pose proof (Z.mul_div_le (Z.pos mx) (2 ^ n) HP) as Hdiv1.
  pose proof (Z.mul_succ_div_gt (Z.pos mx) (2 ^ n) HP) as Hdiv2.
  rewrite <- Hm1 in Hdiv1, Hdiv2.
  assert (Hm1r : 2 ^ 52 <= m1 < 2 ^ 53) by nia.
  pose proof (round_nearest_even_range m1 (loc_of_shr_record mrs1)) as Hm2.
  set (m2 := round_nearest_even m1 (loc_of_shr_record mrs1)) in *.
  destruct (Z.eq_dec m2 (2 ^ 53)) as [E|NE].
  - rewrite E.
    change (Zdigits2 (2 ^ 53)) with 54.
    rewrite fexp_normal by lia.
    replace (54 + (ex + n) - 53 - (ex + n)) with 1 by lia.
    cbn [shr SpecFloat.iter_pos shr_record_of_loc shr_1 shr_m Z.pow Z.pow_pos
         Pos.iter Z.mul Pos.mul].
    change (shr_m (shr_1 {| shr_m := 2 ^ 53; shr_r := false; shr_s := false |}))
      with (Z.pos 4503599627370496).
    replace (ex + n + 1 <=? b64_emax - b64_prec) with true
      by (symmetry; apply Z.leb_le; unfold b64_emax, b64_prec; lia).
    exists 4503599627370496%positive, (ex + n + 1).
    split; [reflexivity|]. split; [reflexivity|]. split; [lia|].
    replace (ex + n + 1 - ex) with (1 + n) by lia.
    rewrite Z.pow_add_r by lia.
    change (Z.pos 4503599627370496) with (2 ^ 52). nia.
  - assert (Hm2r : 2 ^ 52 <= m2 < 2 ^ 53) by lia.
    destruct m2 as [|q|q] eqn:Eq; try lia.
    assert (Hdq : Z.pos (digits2_pos q) = 53) by (apply digits_unique; lia).
    cbn [Zdigits2]. rewrite Hdq.
    rewrite fexp_normal by lia.
    replace (53 + (ex + n) - 53 - (ex + n)) with 0 by lia.
    cbn [shr shr_record_of_loc shr_m].
    replace (ex + n <=? b64_emax - b64_prec) with true
      by (symmetry; apply Z.leb_le; unfold b64_emax, b64_prec; lia).
    exists q, (ex + n).
    split; [reflexivity|]. split; [exact Hdq|]. split; [lia|].
    replace (ex + n - ex) with n by lia. nia.
Qed.

Lemma pow2_pos e : (0 < pow2 e)%Q.
Proof. apply Qpower_0_lt. reflexivity. Qed.

Lemma pow2_add a b : (pow2 (a + b) == pow2 a * pow2 b)%Q.
Proof. apply Qpower_plus. discriminate. Qed.

Lemma pow2_Z z : 0 <= z -> (pow2 z == inject_Z (2 ^ z))%Q.
Proof. intros H. unfold pow2. now rewrite Zpower_Qpower. Qed.

Lemma pow2_le a b : a <= b -> (pow2 a <= pow2 b)%Q.
Proof. intros H. apply Qpower_le_compat_l; [exact H|discriminate]. Qed.

Lemma pow2_lt_inv a b : (pow2 a < pow2 b)%Q -> a < b.
Proof. intros H. apply (Qpower_lt_compat_l_inv 2); [exact H|reflexivity]. Qed.

Lemma mag_shift (m : positive) (e e0 : Z) :
  e0 <= e -> (mag m e == inject_Z (Z.pos m * 2 ^ (e - e0)) * pow2 e0)%Q.
Proof.
  intros H. unfold mag.
  replace e with ((e - e0) + e0) at 1 by lia.
  rewrite pow2_add, pow2_Z, inject_Z_mult by lia. ring.
Qed.

Lemma mag_pos m e : (0 < mag m e)%Q.
Proof.
  unfold mag. apply Qmult_lt_0_compat; [|apply pow2_pos].
  now rewrite <- (Zlt_Qlt 0).
Qed.

Lemma close_scale (a b : Z) (P : Q) :
  (0 < P)%Q ->
  (2 ^ 52 - 1) * a <= 2 ^ 52 * b <= (2 ^ 52 + 1) * a ->
  close (inject_Z a * P) (inject_Z b * P).
Proof.
  intros HP [H1 H2]. unfold close.
  rewrite Zle_Qle, !inject_Z_mult in H1, H2.
  split.
  - rewrite !Qmult_assoc. apply Qmult_le_compat_r; [exact H1|].
    now apply Qlt_le_weak.
  - rewrite !Qmult_assoc. apply Qmult_le_compat_r; [exact H2|].
    now apply Qlt_le_weak.
Qed.

Lemma close_proper v v' V V' :
  (v == v')%Q -> (V == V')%Q -> close v V -> close v' V'.
Proof. unfold close. intros -> ->. auto. Qed.

Lemma binary_round_aux_close sx (mx : positive) ex lx :
  53 <= Z.pos (digits2_pos mx) ->
  -1074 <= ex + (Z.pos (digits2_pos mx) - 53) < 971 ->
  exists m e,
    binary_round_aux b64_prec b64_emax sx (Z.pos mx) ex lx
      = S754_finite sx m e /\
    Z.pos (digits2_pos m) = 53 /\
    ex + (Z.pos (digits2_pos mx) - 53) <= e
      <= ex + (Z.pos (digits2_pos mx) - 53) + 1 /\
    close (mag mx ex) (mag m e).
Proof.
  intros Hd He.
  destruct (binary_round_aux_normal sx mx ex lx Hd He)
    as (m & e & Hr & Hdm & Hee & Hb).
  exists m, e. repeat split; try assumption; try lia.
  - eapply close_proper;
      [reflexivity|symmetry; apply (mag_shift m e ex); lia|].
    apply close_scale; [apply pow2_pos|exact Hb].
  - eapply close_proper;
      [reflexivity|symmetry; apply (mag_shift m e ex); lia|].
    apply close_scale; [apply pow2_pos|exact Hb].
Qed.

Lemma iter_xO (mx : positive) (p : positive) :
  Z.pos (Pos.iter xO mx p) = Z.pos mx * 2 ^ Z.pos p.
Proof.
  apply (Pos.iter_ind _ xO mx (fun p r => Z.pos r = Z.pos mx * 2 ^ Z.pos p)).
  - rewrite Z.pow_1_r. lia.
  - intros q r IH. rewrite Pos2Z.inj_succ, Z.pow_succ_r by lia.
    rewrite Pos2Z.inj_xO, IH. lia.
Qed.

Lemma shl_align_spec (mx : positive) (ex ex' : Z) :
  exists mz ez,
    shl_align mx ex ex' = (mz, ez) /\
    ez = Z.min ex ex' /\
    Z.pos mz = Z.pos mx * 2 ^ (ex - ez) /\
    Z.pos (digits2_pos mz) + ez = Z.pos (digits2_pos mx) + ex.
Proof.
  unfold shl_align. destruct (ex' - ex) as [|p|p] eqn:E.
  - exists mx, ex. split; [reflexivity|]. split; [lia|].
    rewrite Z.sub_diag, Z.pow_0_r. split; lia.
  - exists mx, ex. split; [reflexivity|]. split; [lia|].
    rewrite Z.sub_diag, Z.pow_0_r. split; lia.
  - exists (Pos.iter xO mx p), ex'. split; [reflexivity|]. split; [lia|].
    replace (ex - ex') with (Z.pos p) by lia.
    split; [apply iter_xO|].
    destruct (digits_bounds mx) as [Hlo Hhi].
    assert (HP : 0 < 2 ^ Z.pos p) by (apply Z.pow_pos_nonneg; lia).
    rewrite (digits_unique (Pos.iter xO mx p)
               (Z.pos (digits2_pos mx) + Z.pos p)); [lia|].
    rewrite iter_xO.
    replace (Z.pos (digits2_pos mx) + Z.pos p - 1)
      with (Z.pos (digits2_pos mx) - 1 + Z.pos p) by lia.
    rewrite !Z.pow_add_r by lia. nia.
Qed.

Lemma mag_shl (mx mz : positive) (ex ez : Z) :
  ez <= ex -> Z.pos mz = Z.pos mx * 2 ^ (ex - ez) ->
  (mag mz ez == mag mx ex)%Q.
Proof.
  intros H E. rewrite (mag_shift mx ex ez) by exact H.
  unfold mag. now rewrite E.
Qed.

Lemma binary_round_close sx (mx : positive) ex :
  -1021 <= Z.pos (digits2_pos mx) + ex <= 1023 ->
  exists m e,
    binary_round b64_prec b64_emax sx mx ex = S754_finite sx m e /\
    Z.pos (digits2_pos m) = 53 /\
    Z.pos (digits2_pos mx) + ex - 53 <= e
      <= Z.pos (digits2_pos mx) + ex - 52 /\
    close (mag mx ex) (mag m e).
Proof.
  intros Hr. unfold binary_round. rewrite fexp_normal by lia.
  destruct (shl_align_spec mx ex (Z.pos (digits2_pos mx) + ex - 53))
    as (mz & ez & -> & Hez & Hmz & Hdz).
  destruct (binary_round_aux_close sx mz ez loc_Exact)
    as (m & e & Hres & Hdm & He & Hc); try lia.
  exists m, e. split; [exact Hres|]. split; [exact Hdm|]. split; [lia|].
  eapply close_proper; [apply (mag_shl mx mz ex ez); lia|reflexivity|exact Hc].
Qed.

Lemma mag_lt_pow2 m e : (mag m e < pow2 (Z.pos (digits2_pos m) + e))%Q.
Proof.
  destruct (digits_bounds m) as [_ Hhi].
  rewrite pow2_add, pow2_Z by lia. unfold mag.
  apply Qmult_lt_r; [apply pow2_pos|]. now rewrite <- Zlt_Qlt.
Qed.

Lemma mag_ge_pow2 m e : (pow2 (Z.pos (digits2_pos m) - 1 + e) <= mag m e)%Q.
Proof.
  destruct (digits_bounds m) as [Hlo _].
  rewrite pow2_add, pow2_Z by lia. unfold mag.
  apply Qmult_le_compat_r; [|apply Qlt_le_weak, pow2_pos].
  now rewrite <- Zle_Qle.
Qed.

Lemma mag_exp_lower m e lo :
  (pow2 lo <= mag m e)%Q -> lo < Z.pos (digits2_pos m) + e.
Proof.
  intros H. apply pow2_lt_inv.
  eapply Qle_lt_trans; [exact H|apply mag_lt_pow2].
Qed.

Lemma mag_exp_upper m e hi :
  (mag m e <= pow2 hi)%Q -> Z.pos (digits2_pos m) - 1 + e <= hi.
Proof.
  intros H. apply (Qpower_le_compat_l_inv 2); [|reflexivity].
  eapply Qle_trans; [apply mag_ge_pow2|exact H].
Qed.

Lemma bounded_normal m e :
  bounded b64_prec b64_emax m e = true ->
  -1021 <= Z.pos (digits2_pos m) + e ->
  Z.pos (digits2_pos m) = 53 /\ e <= 971.
Proof.
  unfold bounded, canonical_mantissa. intros [Hc Hb]%andb_prop Hr.
  apply Z.eqb_eq in Hc. apply Z.leb_le in Hb.
  rewrite fexp_normal in Hc by lia.
  unfold b64_emax, b64_prec in Hb. lia.
Qed.

Lemma exact_finite_abs s m e :
  (Qabs (inject_Z (cond_Zopp s (Z.pos m)) * 2 ^ e) == mag m e)%Q.
Proof.
  rewrite Qabs_Qmult. unfold mag, pow2.
  rewrite (Qabs_pos (2 ^ e)) by (apply Qlt_le_weak, (pow2_pos e)).
  apply Qmult_comp; [|reflexivity].
  destruct s; simpl; reflexivity.
Qed.

Lemma close_refl v : (0 <= v)%Q -> close v v.
Proof.
  intros Hv. unfold close. split; apply Qmult_le_compat_r; try exact Hv;
    rewrite <- Zle_Qle; lia.
Qed.

Lemma fl_of_input s m e :
  bounded b64_prec b64_emax m e = true ->
  in_range (mag m e) ->
  fl_of (-553) 449 (mag m e) (S754_finite s m e).
Proof.
  intros Hb [H0|[Hlo Hhi]].
  - pose proof (mag_pos m e) as Hp. rewrite H0 in Hp. discriminate Hp.
  - right. exists s, m, e. split; [reflexivity|].
    pose proof (mag_exp_lower m e _ Hlo). pose proof (mag_exp_upper m e _ Hhi).
    destruct (bounded_normal m e Hb ltac:(lia)) as [Hd _].
    split; [exact Hd|]. split; [lia|].
    apply close_refl, Qlt_le_weak, mag_pos.
Qed.

Lemma close_proper_l v v' V : (v == v')%Q -> close v V -> close v' V.
Proof. intros H. apply close_proper; [exact H|reflexivity]. Qed.

Lemma fl_of_proper elo ehi v v' d :
  (v == v')%Q -> fl_of elo ehi v d -> fl_of elo ehi v' d.
Proof.
  intros Hv [[H0 Hz]|(s & m & e & -> & Hd & He & Hc)].
  - left. split; [now rewrite <- Hv|exact Hz].
  - right. exists s, m, e.
    split; [reflexivity|]. split; [exact Hd|]. split; [exact He|].
    now apply (close_proper_l v v').
Qed.

Lemma in_range_proper v v' : (v == v')%Q -> in_range v -> in_range v'.
Proof. unfold in_range. intros ->. auto. Qed.

Lemma binary_round_fl sx p ez :
  in_range (mag p ez) ->
  fl_of (-553) 449 (mag p ez) (binary_round b64_prec b64_emax sx p ez).
Proof.
  intros [H0|[Hlo Hhi]].
  - pose proof (mag_pos p ez) as Hp. rewrite H0 in Hp. discriminate Hp.
  - pose proof (mag_exp_lower p ez _ Hlo).
    pose proof (mag_exp_upper p ez _ Hhi).
    destruct (binary_round_close sx p ez) as (m & e & Hr & Hd & He & Hc);
      [lia|].
    right. exists sx, m, e.
    split; [exact Hr|]. split; [exact Hd|]. split; [lia|exact Hc].
Qed.

Lemma binary_normalize_fl z ez v :
  in_range v -> (v == Qabs (inject_Z z * pow2 ez))%Q ->
  fl_of (-553) 449 v (binary_normalize b64_prec b64_emax z ez false).
Proof.
  intros Hr Hv. destruct z as [|p|p]; cbn [binary_normalize].
  - left. split; [|reflexivity]. rewrite Hv. reflexivity.
  - assert (E : (v == mag p ez)%Q).
    { rewrite Hv. apply (exact_finite_abs false). }
    apply (fl_of_proper _ _ (mag p ez)); [now symmetry|].
    apply binary_round_fl. now apply (in_range_proper v).
  - assert (E : (v == mag p ez)%Q).
    { rewrite Hv. apply (exact_finite_abs true). }
    apply (fl_of_proper _ _ (mag p ez)); [now symmetry|].
    apply binary_round_fl. now apply (in_range_proper v).
Qed.

Lemma exact_align s (m m' : positive) (e ez : Z) :
  ez <= e -> Z.pos m' = Z.pos m * 2 ^ (e - ez) ->
  (inject_Z (cond_Zopp s (Z.pos m)) * 2 ^ e
   == inject_Z (cond_Zopp s (Z.pos m')) * pow2 ez)%Q.
Proof.
  intros He Hm.
  assert (E : cond_Zopp s (Z.pos m') = cond_Zopp s (Z.pos m) * 2 ^ (e - ez)).
  { destruct s; cbn [cond_Zopp]; lia. }
  rewrite E, inject_Z_mult, <- pow2_Z by lia.
  change (2 ^ e)%Q with (pow2 e).
  replace e with ((e - ez) + ez) at 1 by lia.
  rewrite pow2_add. ring.
Qed.

Lemma fsub_fl (a b : double) (va vb : Q) :
  is_double a = true -> is_double b = true ->
  exact a = Some va -> exact b = Some vb ->
  in_range (Qabs (va - vb)) ->
  fl_of (-553) 449 (Qabs (va - vb)) (fsub a b).
Proof.
  intros Ha Hb Ea Eb Hr.
  destruct a as [sa|sa| |sa ma ea], b as [sb|sb| |sb mb eb];
    try discriminate; cbn [exact] in Ea, Eb;
    injection Ea as <-; injection Eb as <-.
  - left. split; [reflexivity|]. now destruct sa, sb.
  - assert (E : (Qabs (0 - inject_Z (cond_Zopp sb (Z.pos mb)) * 2 ^ eb)
                 == mag mb eb)%Q).
    { rewrite <- (exact_finite_abs sb mb eb), <- Qabs_opp.
      apply Qabs_wd. ring. }
    apply (fl_of_proper _ _ (mag mb eb)); [now symmetry|].
    apply fl_of_input; [exact Hb|]. now apply (in_range_proper _ _ E).
  - assert (E : (Qabs (inject_Z (cond_Zopp sa (Z.pos ma)) * 2 ^ ea - 0)
                 == mag ma ea)%Q).
    { rewrite <- (exact_finite_abs sa ma ea). apply Qabs_wd. ring. }
    apply (fl_of_proper _ _ (mag ma ea)); [now symmetry|].
    apply fl_of_input; [exact Ha|]. now apply (in_range_proper _ _ E).
  - unfold fsub, SFsub.
    destruct (shl_align_spec ma ea (Z.min ea eb))
      as (ma' & ez1 & -> & H1 & Hm1 & _).
    destruct (shl_align_spec mb eb (Z.min ea eb))
      as (mb' & ez2 & -> & H2 & Hm2 & _).
    cbn [fst].
    apply binary_normalize_fl; [exact Hr|].
    apply Qabs_wd.
    assert (E1 := exact_align sa ma ma' ea (Z.min ea eb) ltac:(lia)).
    assert (E2 := exact_align sb mb mb' eb (Z.min ea eb) ltac:(lia)).
    rewrite E1, E2.
    + unfold Z.sub. rewrite inject_Z_plus, inject_Z_opp. ring.
    + rewrite Hm2. subst ez2. do 2 f_equal. lia.
    + rewrite Hm1. subst ez1. do 2 f_equal. lia.
Qed.

Lemma close_within v V : close v V -> within (1 - u52) (1 + u52) v V.
Proof.
  unfold close, within, u52.
  change (inject_Z (2 ^ 52 - 1)) with (4503599627370495 # 1).
  change (inject_Z (2 ^ 52)) with (4503599627370496 # 1).
  change (inject_Z (2 ^ 52 + 1)) with (4503599627370497 # 1).
  intros [H1 H2]. split; lra.
Qed.

Lemma Qmult_le_compat_left (x y z : Q) :
  (x <= y)%Q -> (0 <= z)%Q -> (z * x <= z * y)%Q.
Proof.
  intros H Hz. rewrite !(Qmult_comm z). now apply Qmult_le_compat_r.
Qed.

Lemma within_trans l1 h1 l2 h2 a b c :
  (0 <= l2)%Q -> (0 <= h2)%Q ->
  within l1 h1 a b -> within l2 h2 b c -> within (l1 * l2) (h1 * h2) a c.
Proof.
  unfold within. intros Hl Hh [A1 A2] [B1 B2]. split.
  - eapply Qle_trans; [|exact B1].
    assert (E : (l1 * l2 * a == l2 * (l1 * a))%Q) by ring; rewrite E; clear E.
    apply Qmult_le_compat_left; assumption.
  - eapply Qle_trans; [exact B2|].
    assert (E : (h1 * h2 * a == h2 * (h1 * a))%Q) by ring; rewrite E; clear E.
    apply Qmult_le_compat_left; assumption.
Qed.

Lemma within_sq l h a b :
  (0 <= l)%Q -> (0 <= a)%Q ->
  within l h a b -> within (l * l) (h * h) (a * a) (b * b).
Proof.
  unfold within. intros Hl Ha [H1 H2].
  assert (Hla : (0 <= l * a)%Q) by (apply Qmult_le_0_compat; assumption).
  assert (Hb : (0 <= b)%Q) by (eapply Qle_trans; eassumption).
  split.
  - assert (E : (l * l * (a * a) == (l * a) * (l * a))%Q) by ring.
    rewrite E; clear E.
    apply Qmult_le_compat_nonneg; split; assumption.
  - assert (E : (h * h * (a * a) == (h * a) * (h * a))%Q) by ring.
    rewrite E; clear E.
    apply Qmult_le_compat_nonneg; split; assumption.
Qed.

Lemma within_add l h a b a' b' :
  within l h a b -> within l h a' b' -> within l h (a + a') (b + b').
Proof.
  unfold within. intros [H1 H2] [H3 H4]. split.
  - assert (E : (l * (a + a') == l * a + l * a')%Q) by ring; rewrite E; clear E.
    now apply Qplus_le_compat.
  - assert (E : (h * (a + a') == h * a + h * a')%Q) by ring; rewrite E; clear E.
    now apply Qplus_le_compat.
Qed.

Lemma within_proper l h v v' V V' :
  (v == v')%Q -> (V == V')%Q -> within l h v V -> within l h v' V'.
Proof. unfold within. intros -> ->. auto. Qed.

Lemma digits_lower (p : positive) (k : Z) :
  0 <= k -> 2 ^ k <= Z.pos p -> k + 1 <= Z.pos (digits2_pos p).
Proof.
  intros Hk H. destruct (digits_bounds p) as [_ Hhi].
  assert (k < Z.pos (digits2_pos p)); [|lia].
  apply (Z.pow_lt_mono_r_iff 2); lia.
Qed.

Lemma digits_upper (p : positive) (k : Z) :
  0 <= k -> Z.pos p < 2 ^ k -> Z.pos (digits2_pos p) <= k.
Proof.
  intros Hk H. destruct (digits_bounds p) as [Hlo _].
  assert (Z.pos (digits2_pos p) - 1 < k); [|lia].
  apply (Z.pow_lt_mono_r_iff 2); lia.
Qed.

Lemma digits53_range (m : positive) :
  Z.pos (digits2_pos m) = 53 -> 2 ^ 52 <= Z.pos m < 2 ^ 53.
Proof. intros H. pose proof (digits_bounds m) as Hb. now rewrite H in Hb. Qed.

Lemma mag_mul m1 e1 m2 e2 :
  (mag (m1 * m2) (e1 + e2) == mag m1 e1 * mag m2 e2)%Q.
Proof.
  unfold mag. rewrite Pos2Z.inj_mul, inject_Z_mult, pow2_add. ring.
Qed.

Lemma fmul_sq_fl v d :
  (0 <= v)%Q -> fl_of (-553) 449 v d -> sq_of v (fmul d d).
Proof.
  intros Hv [[H0 Hz]|(s & m & e & -> & Hd & He & Hc)].
  - left. split; [exact H0|]. destruct d as [[]| | |]; try discriminate;
      reflexivity.
  - right. unfold fmul, SFmul.
    replace (xorb s s) with false by now destruct s.
    destruct (digits53_range m Hd) as [Hlo Hhi].
    assert (Hd2lo : 105 <= Z.pos (digits2_pos (m * m))).
    { apply (digits_lower _ 104); [lia|]. rewrite Pos2Z.inj_mul.
      change (2 ^ 104) with (2 ^ 52 * 2 ^ 52). nia. }
    assert (Hd2hi : Z.pos (digits2_pos (m * m)) <= 106).
    { apply digits_upper; [lia|]. rewrite Pos2Z.inj_mul.
      change (2 ^ 106) with (2 ^ 53 * 2 ^ 53). nia. }
    destruct (binary_round_aux_close false (m * m) (e + e) loc_Exact)
      as (m' & e' & Hr & Hd' & He' & Hc'); [lia|lia|].
    exists m', e'. split; [exact Hr|]. split; [exact Hd'|]. split; [lia|].
    apply close_within in Hc, Hc'.
    assert (Hl : (0 <= 1 - u52)%Q) by (unfold u52; lra).
    assert (Hh : (0 <= 1 + u52)%Q) by (unfold u52; lra).
    eapply within_trans; [exact Hl|exact Hh| |exact Hc'].
    eapply within_proper; [reflexivity|symmetry; apply mag_mul|].
    apply within_sq; assumption.
Qed.

Lemma within_weaken l h l' h' v V :
  (0 <= v)%Q -> (l' <= l)%Q -> (h <= h')%Q ->
  within l h v V -> within l' h' v V.
Proof.
  unfold within. intros Hv Hl Hh [H1 H2]. split.
  - eapply Qle_trans; [|exact H1]. now apply Qmult_le_compat_r.
  - eapply Qle_trans; [exact H2|]. now apply Qmult_le_compat_r.
Qed.

Lemma sq_nonneg (v : Q) : (0 <= v * v)%Q.
Proof.
  destruct (Qlt_le_dec v 0) as [H|H].
  - assert (E : (v * v == (- v) * (- v))%Q) by ring. rewrite E.
    apply Qmult_le_0_compat; lra.
  - now apply Qmult_le_0_compat.
Qed.

Lemma fadd_sum_fl vx vy sx sy :
  sq_of vx sx -> sq_of vy sy -> sum_of (vx * vx + vy * vy) (fadd sx sy).
Proof.
  assert (Hl : (c3l * (1 - u52) <= c3l)%Q) by (unfold c3l, u52; lra).
  assert (Hh : (c3h <= c3h * (1 + u52))%Q) by (unfold c3h, u52; lra).
  assert (H1l : (0 <= 1 - u52)%Q) by (unfold u52; lra).
  assert (H1h : (0 <= 1 + u52)%Q) by (unfold u52; lra).
  intros [[Hx0 ->]|(ma & ea & -> & Hda & Hea & Hwa)]
         [[Hy0 ->]|(mb & eb & -> & Hdb & Heb & Hwb)].
  - left. split; [|reflexivity]. rewrite Hx0, Hy0. reflexivity.
  - right. exists mb, eb. split; [reflexivity|]. split; [exact Hdb|].
    split; [lia|].
    eapply within_weaken; [| exact Hl | exact Hh |].
    + rewrite Hx0. setoid_replace (0 * 0 + vy * vy)%Q with (vy * vy)%Q
        using relation Qeq by ring.
      apply sq_nonneg.
    + eapply within_proper; [|reflexivity|exact Hwb]. rewrite Hx0. ring.
  - right. exists ma, ea. split; [reflexivity|]. split; [exact Hda|].
    split; [lia|].
    eapply within_weaken; [| exact Hl | exact Hh |].
    + rewrite Hy0. setoid_replace (vx * vx + 0 * 0)%Q with (vx * vx)%Q
        using relation Qeq by ring.
      apply sq_nonneg.
    + eapply within_proper; [|reflexivity|exact Hwa]. rewrite Hy0. ring.
  - right. unfold fadd, SFadd.
    destruct (shl_align_spec ma ea (Z.min ea eb))
      as (ma' & ez1 & -> & H1 & Hm1 & _).
    destruct (shl_align_spec mb eb (Z.min ea eb))
      as (mb' & ez2 & -> & H2 & Hm2 & _).
    cbn [fst cond_Zopp Z.add binary_normalize].
    set (ez := Z.min ea eb) in *.
    replace ez1 with ez in * by lia. replace ez2 with ez in * by lia.
    destruct (digits53_range ma Hda) as [Halo Hahi].
    destruct (digits53_range mb Hdb) as [Hblo Hbhi].
    assert (Pa : 0 < 2 ^ (ea - ez)) by (apply Z.pow_pos_nonneg; lia).
    assert (Pb : 0 < 2 ^ (eb - ez)) by (apply Z.pow_pos_nonneg; lia).
    assert (Hlo : 52 + ea - ez + 1 <= Z.pos (digits2_pos (ma' + mb'))).
    { apply digits_lower; [lia|]. rewrite Pos2Z.inj_add, Hm1.
      replace (52 + ea - ez) with (52 + (ea - ez)) by lia.
      rewrite Z.pow_add_r by lia. nia. }
    assert (Hhi : Z.pos (digits2_pos (ma' + mb')) <= 54 + Z.max ea eb - ez).
    { apply digits_upper; [lia|]. rewrite Pos2Z.inj_add, Hm1, Hm2.
      assert (2 ^ (ea - ez) <= 2 ^ (Z.max ea eb - ez))
        by (apply Z.pow_le_mono_r; lia).
      assert (2 ^ (eb - ez) <= 2 ^ (Z.max ea eb - ez))
        by (apply Z.pow_le_mono_r; lia).
      replace (54 + Z.max ea eb - ez) with (54 + (Z.max ea eb - ez)) by lia.
      rewrite Z.pow_add_r by lia.
      change (2 ^ 54) with (2 * 2 ^ 53). nia. }
    destruct (binary_round_close false (ma' + mb') ez)
      as (m & e & Hr & Hd & He & Hc); [lia|].
    exists m, e. split; [exact Hr|]. split; [exact Hd|]. split; [lia|].
    apply close_within in Hc.
    eapply within_trans; [exact H1l|exact H1h| |exact Hc].
    eapply within_proper;
      [reflexivity| |apply (within_add _ _ _ _ _ _ Hwa Hwb)].
    rewrite <- (mag_shl ma ma' ea ez), <- (mag_shl mb mb' eb ez)
      by (lia || assumption).
    unfold mag. rewrite Pos2Z.inj_add, inject_Z_plus. ring.
Qed.

Lemma fsqrt_fl (m : positive) (e : Z) :
  Z.pos (digits2_pos m) = 53 -> -1054 <= e <= 954 ->
  exists m' e',
    fsqrt (S754_finite false m e) = S754_finite false m' e' /\
    ((1 - u52) * (1 - u52) * mag m e
       <= (1 + u52) * (1 + u52) * (mag m' e' * mag m' e') /\
     mag m' e' * mag m' e' <= (1 + u52) * (1 + u52) * mag m e)%Q.
Proof.
  intros Hd He. unfold fsqrt, SFsqrt, SFsqrt_core_binary.
  cbn [Zdigits2]. rewrite Hd.
  set (h := e / 2).
  assert (Hh : 2 * h <= e <= 2 * h + 1).
  { subst h. pose proof (Z.div_mod e 2 ltac:(lia)).
    pose proof (Z.mod_pos_bound e 2 ltac:(lia)). lia. }
  assert (E1 : Z.div2 (53 + e + 1) = h + 27).
  { rewrite Z.div2_div. subst h.
    replace (53 + e + 1) with (e + 27 * 2) by lia.
    now rewrite Z.div_add by lia. }
  assert (E2 : Z.div2 e = h) by (rewrite Z.div2_div; reflexivity).
  rewrite E1, E2, fexp_normal by lia.
  replace (Z.min (h + 27 - 53) h) with (h - 26) by lia.
  set (e' := h - 26).
  destruct (e - 2 * e') as [|sh|sh] eqn:Esh; try lia.
  rewrite Z.shiftl_mul_pow2 by lia.
  assert (Hsh : Z.pos sh = 52 \/ Z.pos sh = 53) by lia.
  destruct (digits53_range m Hd) as [Hmlo Hmhi].
  set (m2 := Z.pos m * 2 ^ Z.pos sh).
  assert (Hm2 : 2 ^ 104 <= m2 < 2 ^ 106).
  { subst m2. destruct Hsh as [-> | ->].
    - change (2 ^ 104) with (2 ^ 52 * 2 ^ 52).
      change (2 ^ 106) with (2 ^ 53 * 2 ^ 53). lia.
    - change (2 ^ 104) with (2 ^ 52 * 2 ^ 52).
      change (2 ^ 106) with (2 ^ 53 * 2 ^ 53). lia. }
  pose proof (Z.sqrtrem_spec m2 ltac:(lia)) as Hs.
  destruct (Z.sqrtrem m2) as [q r].
  destruct Hs as [Hq Hrr].
  assert (Hqr : 2 ^ 52 <= q < 2 ^ 53).
  { change (2 ^ 104) with (2 ^ 52 * 2 ^ 52) in Hm2.
    change (2 ^ 106) with (2 ^ 53 * 2 ^ 53) in Hm2. nia. }
  destruct q as [|qp|qp]; try lia.
  assert (Hdq : Z.pos (digits2_pos qp) = 53) by (apply digits_unique; lia).
  destruct (binary_round_aux_close false qp e'
              (if r =? 0 then loc_Exact
               else loc_Inexact (if r <=? Z.pos qp then Lt else Gt)))
    as (m' & e'' & Hr & Hd' & He' & Hc); [lia|subst e'; lia|].
  exists m', e''. split; [exact Hr|].
  apply close_within in Hc. destruct Hc as [Hc1 Hc2].
  assert (HS : (mag m e == inject_Z m2 * (pow2 e' * pow2 e'))%Q).
  { rewrite (mag_shift m e (e' + e')) by lia.
    rewrite pow2_add. subst m2.
    replace (e - (e' + e')) with (Z.pos sh) by lia. reflexivity. }
  assert (HQ : (mag qp e' * mag qp e'
                == inject_Z (Z.pos qp * Z.pos qp) * (pow2 e' * pow2 e'))%Q).
  { unfold mag. rewrite inject_Z_mult. ring. }
  assert (HP : (0 <= pow2 e' * pow2 e')%Q).
  { apply Qmult_le_0_compat; apply Qlt_le_weak, pow2_pos. }
  assert (B1 : (mag qp e' * mag qp e' <= mag m e)%Q).
  { rewrite HS, HQ. apply Qmult_le_compat_r; [|exact HP].
    rewrite <- Zle_Qle. lia. }
  assert (B2 : (mag m e
                <= (1 + u52) * (1 + u52) * (mag qp e' * mag qp e'))%Q).
  { rewrite HS, HQ.
    assert (Hz : 2 ^ 104 * m2
                 <= (2 ^ 52 + 1) * (2 ^ 52 + 1) * (Z.pos qp * Z.pos qp))
      by nia.
    rewrite Zle_Qle, !inject_Z_mult in Hz.
    change (inject_Z (2 ^ 104))
      with (20282409603651670423947251286016 # 1) in Hz.
    change (inject_Z (2 ^ 52 + 1)) with (4503599627370497 # 1) in Hz.
    rewrite inject_Z_mult.
    set (Q2 := (inject_Z (Z.pos qp) * inject_Z (Z.pos qp))%Q) in *.
    set (P := (pow2 e' * pow2 e')%Q) in *.
    set (M := inject_Z m2) in *.
    assert (Hz' : (M <= (1 + u52) * (1 + u52) * Q2)%Q) by (unfold u52; lra).
    assert (E : ((1 + u52) * (1 + u52) * (Q2 * P)
                 == ((1 + u52) * (1 + u52) * Q2) * P)%Q) by ring.
    rewrite E. now apply Qmult_le_compat_r. }
  assert (Hq0 : (0 <= mag qp e')%Q) by apply Qlt_le_weak, mag_pos.
  assert (Hl : (0 <= 1 - u52)%Q) by (unfold u52; lra).
  pose proof (within_sq _ _ _ _ Hl Hq0 (conj Hc1 Hc2)) as [S1 S2].
  set (R2 := (mag m' e'' * mag m' e'')%Q) in *.
  set (Q2 := (mag qp e' * mag qp e')%Q) in *.
  set (S := mag m e) in *.
  assert (Hu : (0 <= (1 + u52) * (1 + u52))%Q) by (unfold u52; lra).
  assert (Hu' : (0 <= (1 - u52) * (1 - u52))%Q) by (unfold u52; lra).
  split.
  - eapply Qle_trans; [apply (Qmult_le_compat_left _ _ _ B2 Hu')|].
    assert (E : ((1 - u52) * (1 - u52) * ((1 + u52) * (1 + u52) * Q2)
                 == (1 + u52) * (1 + u52) * ((1 - u52) * (1 - u52) * Q2))%Q)
      by ring.
    rewrite E. now apply Qmult_le_compat_left.
  - eapply Qle_trans; [exact S2|]. now apply Qmult_le_compat_left.
Qed.

Lemma safe_difference_spec a b :
  safe_difference a b = true ->
  exists va vb, exact a = Some va /\ exact b = Some vb /\
                in_range (Qabs (va - vb)).
Proof.
  unfold safe_difference.
  destruct (exact a) as [va|]; [|discriminate].
  destruct (exact b) as [vb|]; [|discriminate].
  intros H. exists va, vb. split; [reflexivity|]. split; [reflexivity|].
  apply orb_prop in H as [H|H].
  - left. now apply Qeq_bool_iff.
  - right. apply andb_prop in H as [H1 H2].
    split; now apply Qle_bool_iff.
Qed.

Lemma Qabs_sq (a : Q) : (Qabs a * Qabs a == a * a)%Q.
Proof.
  rewrite <- Qabs_Qmult. apply Qabs_pos, sq_nonneg.
Qed.

Lemma tol_lower :
  ((1 - (1 # 2 ^ 50)) ^ 2 * ((1 + u52) * (1 + u52))
   <= (1 - u52) * (1 - u52) * (c3l * (1 - u52)))%Q.
Proof. apply Qle_bool_iff. vm_compute. reflexivity. Qed.

Lemma tol_upper :
  ((1 + u52) * (1 + u52) * (c3h * (1 + u52)) <= (1 + (1 # 2 ^ 50)) ^ 2)%Q.
Proof. apply Qle_bool_iff. vm_compute. reflexivity. Qed.

Lemma distance_accurate (q1 q2 : Point) :
  is_double_point q1 = true -> is_double_point q2 = true ->
  safe_points q1 q2 = true ->
  spec_euclidean_within (1 # 2 ^ 50) q1 q2 (distance (Ptr q1) (Ptr q2)) = true.
Proof.
  intros [Hx1 Hy1]%andb_prop [Hx2 Hy2]%andb_prop [Sx Sy]%andb_prop.
  destruct (safe_difference_spec _ _ Sx) as (vx2 & vx1 & Ex2 & Ex1 & Rx).
  destruct (safe_difference_spec _ _ Sy) as (vy2 & vy1 & Ey2 & Ey1 & Ry).
  pose proof (fsub_fl _ _ _ _ Hx2 Hx1 Ex2 Ex1 Rx) as Fx.
  pose proof (fsub_fl _ _ _ _ Hy2 Hy1 Ey2 Ey1 Ry) as Fy.
  apply (fmul_sq_fl _ _ (Qabs_nonneg _)) in Fx, Fy.
  pose proof (fadd_sum_fl _ _ _ _ Fx Fy) as Fs.
  unfold spec_euclidean_within, spec_euclid_sq.
  rewrite Ex1, Ey1, Ex2, Ey2. cbn [mbind option_bind].
  unfold distance.
  set (D := (Qabs (vx2 - vx1) * Qabs (vx2 - vx1)
             + Qabs (vy2 - vy1) * Qabs (vy2 - vy1))%Q) in *.
  assert (ED : (Qred ((vx2 - vx1) ^ 2 + (vy2 - vy1) ^ 2) == D)%Q).
  { rewrite Qred_correct. subst D. rewrite !Qabs_sq. ring. }
  assert (HD : (0 <= D)%Q).
  { subst D. apply (Qplus_le_compat 0 _ 0); apply sq_nonneg. }
  destruct Fs as [[HD0 ->]|(m & e & -> & Hd & He & [W1 W2])].
  - cbn [fsqrt SFsqrt exact]. rewrite !andb_true_iff, !Qle_bool_iff.
    rewrite ED, HD0. repeat split; try apply Qle_refl.
    + assert (E : (0 ^ 2 == 0)%Q) by ring. rewrite E. lra.
    + assert (E : (0 ^ 2 == 0)%Q) by ring. rewrite E. lra.
  - destruct (fsqrt_fl m e Hd He) as (m' & e' & -> & R1 & R2).
    cbn [exact cond_Zopp]. fold (pow2 e'). fold (mag m' e').
    rewrite !andb_true_iff, !Qle_bool_iff, ED.
    assert (E : (mag m' e' ^ 2 == mag m' e' * mag m' e')%Q) by ring.
    rewrite E.
    set (R := (mag m' e' * mag m' e')%Q) in *.
    set (S := mag m e) in *.
    assert (Hu : (0 < (1 + u52) * (1 + u52))%Q) by (unfold u52; lra).
    assert (Hu' : (0 <= (1 - u52) * (1 - u52))%Q) by (unfold u52; lra).
    split; [split|].
    + apply Qlt_le_weak, mag_pos.
    + apply (Qmult_le_l _ _ _ Hu).
      eapply Qle_trans; [|exact R1].
      eapply Qle_trans;
        [|apply (Qmult_le_compat_left _ _ _ W1 Hu')].
      assert (E1 : ((1 + u52) * (1 + u52) * ((1 - (1 # 2 ^ 50)) ^ 2 * D)
                    == (1 - (1 # 2 ^ 50)) ^ 2 * ((1 + u52) * (1 + u52)) * D)%Q)
        by ring.
      assert (E2 : ((1 - u52) * (1 - u52) * (c3l * (1 - u52) * D)
                    == ((1 - u52) * (1 - u52) * (c3l * (1 - u52))) * D)%Q)
        by ring.
      rewrite E1, E2. apply Qmult_le_compat_r; [apply tol_lower|exact HD].
    + eapply Qle_trans; [exact R2|].
      eapply Qle_trans;
        [apply (Qmult_le_compat_left _ _ _ W2 (Qlt_le_weak _ _ Hu))|].
      assert (E1 : ((1 + u52) * (1 + u52) * (c3h * (1 + u52) * D)
                    == ((1 + u52) * (1 + u52) * (c3h * (1 + u52))) * D)%Q)
        by ring.
      rewrite E1. apply Qmult_le_compat_r; [apply tol_upper|exact HD].
Qed.

End Accuracy.

(** C1: whatever [a] is, [divide_double a 0.0] is exactly [0.0]; more
    generally the result is [0.0] as soon as [b == 0.0] holds, and it is the
    quotient [a / b] as soon as [b != 0.0] holds.  A zero divisor is masked by
    the sentinel: no infinity and no NaN comes out. *)
Theorem divide_double_zero_sentinel (a b : double) :
  divide_double a pzero = pzero /\
  (feqb b pzero = true -> divide_double a b = pzero) /\
  (feqb b pzero = false -> divide_double a b = fdiv a b).
Proof.
  unfold divide_double. split; [reflexivity|].
  split; intros ->; reflexivity.
Qed.

Lemma divide_double_zero_sentinel_witness :
  (feqb (S754_zero true) pzero = true /\
   divide_double (double_of_Z 1) (S754_zero true) = pzero) /\
  (feqb (double_of_Z 3) pzero = false /\
   divide_double (double_of_Z 6) (double_of_Z 3) = double_of_Z 2).
Proof.
  split.
  - split; [reflexivity|].
    apply (divide_double_zero_sentinel (double_of_Z 1) (S754_zero true)).
    reflexivity.
  - split; [reflexivity|].
    rewrite (proj2 (proj2 (divide_double_zero_sentinel
                             (double_of_Z 6) (double_of_Z 3))))
      by reflexivity.
    vm_compute. reflexivity.
Defined.

(** What the sentinel replaces: IEEE division of a finite non-zero number
    by a zero is an infinity, and [0.0 / 0.0] is NaN. *)
Lemma fdiv_by_zero s m e sz :
  fdiv (S754_finite s m e) (S754_zero sz) = S754_infinity (xorb s sz) /\
  fdiv (S754_zero s) (S754_zero sz) = S754_nan.
Proof. split; reflexivity. Qed.

(** C9: for every finite [a], [multiply_double a 0.0 == 0.0].  The product
    is a zero that carries the sign of [a], and [==] holds for both zeros. *)
Theorem multiply_double_zero (a : double) :
  is_finite a = true -> feqb (multiply_double a pzero) pzero = true.
Proof.
  destruct a as [s|s| |s m e]; simpl; try discriminate; intros _; reflexivity.
Qed.

Lemma multiply_double_zero_witness :
  is_finite (double_of_Z (-7)) = true /\
  multiply_double (double_of_Z (-7)) pzero = S754_zero true /\
  feqb (multiply_double (double_of_Z (-7)) pzero) pzero = true.
Proof.
  split; [reflexivity|]. split; [reflexivity|].
  apply (multiply_double_zero (double_of_Z (-7))). reflexivity.
Defined.

(** Finiteness cannot be dropped: an infinity or a NaN times [0.0] is NaN. *)
Lemma multiply_double_zero_not_finite s :
  multiply_double (S754_infinity s) pzero = S754_nan /\
  multiply_double S754_nan pzero = S754_nan /\
  feqb S754_nan pzero = false.
Proof. repeat split. Qed.

(** ** Struct operations *)

(** C8, as stated, fails.  The points [(0, 0)] and [(2^-600, 0)] have finite
    coordinates and lie [2^-600] apart, a distance that is itself a double;
    [distance] squares the difference, the square underflows, and the result
    is [0.0].  Likewise [(0, 0)] and [(2^600, 0)] lie [2^600] apart and
    [distance] returns [+inf].  In both cases the result is not the Euclidean
    distance even up to a relative error of one half. *)
Lemma distance_not_euclidean :
  (is_double (x tiny_point) && is_finite (x tiny_point) = true /\
   spec_euclid_sq origin tiny_point = Some (1 # 2 ^ 1200)%Q /\
   distance (Ptr origin) (Ptr tiny_point) = pzero /\
   spec_euclidean_within (1 # 2) origin tiny_point
     (distance (Ptr origin) (Ptr tiny_point)) = false) /\
  (is_double (x huge_point) && is_finite (x huge_point) = true /\
   spec_euclid_sq origin huge_point = Some (2 ^ 1200 # 1)%Q /\
   distance (Ptr origin) (Ptr huge_point) = S754_infinity false /\
   spec_euclidean_within (1 # 2) origin huge_point
     (distance (Ptr origin) (Ptr huge_point)) = false).
Proof. vm_compute. repeat split. Qed.

(** Away from overflow and underflow the relative error is a rounding
    error: the distance from [(0, 0)] to [(1, 1)] is within [2^-53] of the
    square root of two. *)
Example distance_unit_diagonal :
  spec_euclidean_within (1 # 2 ^ 53) origin
    (mkPoint (double_of_Z 1) (double_of_Z 1))
    (distance (Ptr origin) (Ptr (mkPoint (double_of_Z 1) (double_of_Z 1))))
  = true.
Proof. vm_compute. reflexivity. Qed.

(** The points of the failing cases lie outside the range in which the
    squares are safe; the unit diagonal lies inside. *)
Example safe_points_examples :
  safe_points origin tiny_point = false /\
  safe_points origin huge_point = false /\
  safe_points origin (mkPoint (double_of_Z 1) (double_of_Z 1)) = true.
Proof. vm_compute. repeat split. Qed.

(** C8, amended: for points with finite coordinates whose differences in
    [x] and in [y] are each zero or of magnitude between [2^-500] and
    [2^500], [distance] returns the Euclidean distance up to rounding: a
    finite double that is not negative and lies within the relative error
    [2^-50] of it.  On all points with finite coordinates the result is
    never NaN and never negative; it is [0.0] when either reference is
    absent; [distance p p] is [0.0] for every point with finite
    coordinates, and the distance from [(0, 0)] to [(3, 4)] is [5.0]. *)
Theorem distance_spec :
  (forall p : ptr Point, distance NULL p = pzero /\ distance p NULL = pzero) /\
  (forall q1 q2 : Point,
     is_double_point q1 = true -> is_double_point q2 = true ->
     safe_points q1 q2 = true ->
     spec_euclidean_within (1 # 2 ^ 50) q1 q2 (distance (Ptr q1) (Ptr q2))
       = true) /\
  (forall q1 q2 : Point,
     is_finite (x q1) = true -> is_finite (y q1) = true ->
     is_finite (x q2) = true -> is_finite (y q2) = true ->
     signed false (distance (Ptr q1) (Ptr q2)) = true) /\
  (forall q : Point,
     is_finite (x q) = true -> is_finite (y q) = true ->
     distance (Ptr q) (Ptr q) = pzero) /\
  distance (Ptr origin) (Ptr (mkPoint (double_of_Z 3) (double_of_Z 4)))
    = double_of_Z 5.
Proof.
  split; [|split; [|split; [|split]]].
  - intros [|q]; split; reflexivity.
  - exact distance_accurate.
  - intros q1 q2 Hx1 Hy1 Hx2 Hy2. simpl.
    apply fsqrt_signed, fadd_signed;
      apply fmul_square_signed, fsub_finite_not_nan; assumption.
  - intros q Hx Hy. simpl. rewrite !fsub_diag by assumption. reflexivity.
  - vm_compute. reflexivity.
Qed.

Lemma distance_spec_witness :
  let q1 := mkPoint (double_of_Z 1) (double_of_Z (-2)) in
  let q2 := mkPoint (double_of_Z 4) (double_of_Z 2) in
  let q3 := mkPoint (double_of_Z 2) (double_of_Z (-1)) in
  spec_euclidean_within (1 # 2 ^ 50) q1 q3 (distance (Ptr q1) (Ptr q3))
    = true /\
  signed false (distance (Ptr q1) (Ptr q2)) = true /\
  distance (Ptr q1) (Ptr q2) = double_of_Z 5 /\
  distance (Ptr q2) (Ptr q2) = pzero.
Proof.
  intros q1 q2 q3.
  destruct distance_spec as (_ & Hacc & Hsign & Hself & _).
  split; [|split; [|split]].
  - apply (Hacc q1 q3); vm_compute; reflexivity.
  - apply (Hsign q1 q2); reflexivity.
  - vm_compute. reflexivity.
  - apply (Hself q2); reflexivity.
Defined.

(** ** Loops *)

Section Loops.

Context {St : Type}.
Variable Inv : Z -> St -> Prop.
Variable body : Z -> St -> option St.

(** The invariant rule of the counted loop: an invariant that holds on
    entry and that every trip re-establishes holds on exit, and the loop
    does reach its exit. *)
Lemma for_loop_invariant (trips : nat) (lo : Z) (s : St) :
  Inv lo s ->
  (forall j t, lo <= j < lo + Z.of_nat trips -> Inv j t ->
               exists t', body j t = Some t' /\ Inv (j + 1) t') ->
  exists s', for_loop trips lo body s = Some s' /\
             Inv (lo + Z.of_nat trips) s'.
Proof.
  revert lo s. induction trips as [|n IH]; intros lo s Hs Hbody.
  - exists s. split; [reflexivity|].
    now replace (lo + Z.of_nat 0) with lo by lia.
  - destruct (Hbody lo s ltac:(lia) Hs) as (t & Ht & Hinv).
    destruct (IH (lo + 1) t Hinv) as (s' & Hrun & Hs').
    { intros j u Hj. apply Hbody. lia. }
    exists s'. split.
    + simpl. rewrite Ht. exact Hrun.
    + now replace (lo + Z.of_nat (S n)) with (lo + 1 + Z.of_nat n) by lia.
Qed.

Lemma for_upto_invariant (bound : Z) (s : St) :
  0 <= bound ->
  Inv 0 s ->
  (forall j t, 0 <= j < bound -> Inv j t ->
               exists t', body j t = Some t' /\ Inv (j + 1) t') ->
  exists s', for_upto bound body s = Some s' /\ Inv bound s'.
Proof.
  intros Hb Hs Hbody. unfold for_upto.
  destruct (for_loop_invariant (Z.to_nat bound) 0 s Hs) as (s' & Hrun & Hs').
  { intros j t Hj. apply Hbody. lia. }
  exists s'. split; [exact Hrun|].
  now replace bound with (0 + Z.of_nat (Z.to_nat bound)) at 1 by lia.
Qed.

End Loops.

Lemma for_upto_nonpos {St : Type} (bound : Z) (body : Z -> St -> option St) s :
  bound <= 0 -> for_upto bound body s = Some s.
Proof.
  intros H. unfold for_upto.
  replace (Z.to_nat bound) with O by lia. reflexivity.
Qed.

Section Cells.

Context {A : Type}.

Lemma load_Some (a : list A) (i : Z) (v : A) :
  0 <= i -> a !! Z.to_nat i = Some v -> load a i = Some v.
Proof.
  intros Hi Hv. unfold load.
  destruct (Z.ltb_spec i 0); [lia|exact Hv].
Qed.

Lemma store_Some (a : list A) (i : Z) (v : A) :
  0 <= i < Z.of_nat (length a) ->
  store a i v = Some (<[Z.to_nat i := v]> a).
Proof.
  intros Hi. unfold store.
  destruct (Z.leb_spec 0 i); [|lia].
  destruct (Z.ltb_spec i (Z.of_nat (length a))); [reflexivity|lia].
Qed.

(** Overwriting the cell that follows a prefix. *)
Lemma insert_after_prefix (l1 l2 : list A) (v w : A) (i : nat) :
  i = length l1 -> <[i := w]> (l1 ++ v :: l2) = l1 ++ w :: l2.
Proof.
  intros ->. rewrite insert_app_r_alt by lia.
  now rewrite Nat.sub_diag.
Qed.

End Cells.

(** ** Callbacks *)

(** C6: with a callback, [apply_operation a b callback] is one invocation
    of the callback on [(a, b)] and nothing else: it returns what that
    invocation returns and leaves the caller's state as that invocation
    leaves it, and the log of an instrumented callback grows by the single
    entry [(a, b)].  Without a callback it returns [0], the state and the
    log untouched.  [apply_operation 2 3 add] is [5]. *)
Theorem apply_operation_spec :
  (forall (W : Type) (a b : Z) (f : math_callback W) (w : W),
     apply_operation a b (Ptr f) w = f a b w) /\
  (forall (W : Type) (a b : Z) (f : math_callback W) (w : W)
          (log : list (Z * Z)),
     apply_operation a b (Ptr (logged f)) (log, w)
       = (fst (f a b w), (log ++ [(a, b)], snd (f a b w)))) /\
  (forall (W : Type) (a b : Z) (w : W),
     apply_operation a b (@NULL (math_callback W)) w = (0, w)) /\
  (forall (W : Type) (w : W),
     apply_operation 2 3 (Ptr (pure_callback add)) w = (5, w) /\
     apply_operation 2 3 (@NULL (math_callback W)) w = (0, w)).
Proof.
  split; [|split; [|split]].
  - reflexivity.
  - intros W a b f w log. simpl. destruct (f a b w) as [r w']. reflexivity.
  - reflexivity.
  - intros W w. split; reflexivity.
Qed.

(** ** Array operations *)

Section Arrays.

Lemma Zsum_app l1 l2 : Zsum (l1 ++ l2) = Zsum l1 + Zsum l2.
Proof.
  unfold Zsum. induction l1 as [|v l1 IH]; simpl; [reflexivity|].
  rewrite IH. lia.
Qed.

Lemma sum_array_loop (a : list Z) (size : Z) :
  0 <= size <= Z.of_nat (length a) ->
  for_upto size (fun i sum => e ← load a i; Some (wrap_int (sum + e))) 0
    = Some (wrap_int (Zsum (take (Z.to_nat size) a))).
Proof.
  intros Hsize.
  destruct (for_upto_invariant
              (fun i sum => sum = wrap_int (Zsum (take (Z.to_nat i) a)))
              (fun i sum => e ← load a i; Some (wrap_int (sum + e)))
              size 0) as (s' & Hrun & Hs'); [lia|reflexivity| |congruence].
  intros j t Hj ->.
  destruct (lookup_lt_is_Some_2 a (Z.to_nat j)) as [e He]; [lia|].
  exists (wrap_int (wrap_int (Zsum (take (Z.to_nat j) a)) + e)). split.
  - rewrite (load_Some a j e) by (lia || assumption). reflexivity.
  - replace (Z.to_nat (j + 1)) with (S (Z.to_nat j)) by lia.
    rewrite (take_S_r a _ e He), Zsum_app, wrap_int_add_l.
    f_equal. unfold Zsum. simpl. lia.
Qed.

Lemma double_array_loop (a : list Z) (size : Z) :
  0 <= size <= Z.of_nat (length a) ->
  for_upto size (fun i a => e ← load a i; store a i (wrap_int (e * 2))) a
    = Some (map (fun e => wrap_int (e * 2)) (take (Z.to_nat size) a)
            ++ drop (Z.to_nat size) a).
Proof.
  intros Hsize.
  destruct (for_upto_invariant
              (fun i cur => cur = map (fun e => wrap_int (e * 2))
                                    (take (Z.to_nat i) a)
                                  ++ drop (Z.to_nat i) a)
              (fun i a => e ← load a i; store a i (wrap_int (e * 2)))
              size a) as (s' & Hrun & Hs'); [lia|reflexivity| |congruence].
  intros j t Hj ->.
  destruct (lookup_lt_is_Some_2 a (Z.to_nat j)) as [e He]; [lia|].
  assert (Hlen : length (map (fun e => wrap_int (e * 2))
                           (take (Z.to_nat j) a)) = Z.to_nat j).
  { rewrite length_map, length_take. lia. }
  rewrite (drop_S a e _ He).
  eexists. split.
  - rewrite (load_Some _ j e); [|lia|].
    + simpl. rewrite store_Some.
      * rewrite insert_after_prefix by (symmetry; exact Hlen). reflexivity.
      * rewrite length_app, Hlen. simpl. lia.
    + rewrite lookup_app_r by lia.
      now replace (Z.to_nat j - _)%nat with O by lia.
  - replace (Z.to_nat (j + 1)) with (S (Z.to_nat j)) by lia.
    rewrite (take_S_r a _ e He), map_app, <- app_assoc. reflexivity.
Qed.

End Arrays.

(** C4: [sum_array] returns the sum of the first [size] elements, reduced
    to [int], when the array is present and [size] is positive (and within
    the array); it returns [0] when the array is absent or [size] is not
    positive.  The sum of [1, 2, 3, 4] is [10], that of no element is [0]. *)
Theorem sum_array_spec :
  (forall size : Z, sum_array NULL size = Some 0) /\
  (forall (a : list Z) (size : Z),
     size <= 0 -> sum_array (Ptr a) size = Some 0) /\
  (forall (a : list Z) (size : Z),
     0 < size <= Z.of_nat (length a) ->
     sum_array (Ptr a) size
       = Some (wrap_int (Zsum (take (Z.to_nat size) a)))) /\
  sum_array (Ptr [1; 2; 3; 4]) 4 = Some 10 /\
  sum_array (Ptr []) 0 = Some 0.
Proof.
  split; [|split; [|split; [|split]]]; try reflexivity.
  - intros a size Hsize. simpl.
    destruct (Z.leb_spec size 0); [reflexivity|lia].
  - intros a size Hsize. simpl.
    destruct (Z.leb_spec size 0); [lia|].
    apply sum_array_loop. lia.
Qed.

Lemma sum_array_spec_witness :
  sum_array (Ptr [5; 6; 7]) (-1) = Some 0 /\
  sum_array (Ptr [INT_MAX; 1; 7]) 2 = Some INT_MIN.
Proof.
  destruct sum_array_spec as (_ & Hnonpos & Hsum & _).
  split.
  - apply (Hnonpos [5; 6; 7] (-1)). lia.
  - rewrite (Hsum [INT_MAX; 1; 7] 2) by (simpl; lia). reflexivity.
Defined.

(** C5: [double_array] replaces each of the first [size] elements [e] by
    [2 * e], reduced to [int], and leaves the rest of the array as it was,
    when the array is present and [size] is positive (and within the
    array); it changes nothing when the array is absent or [size] is not
    positive.  [1, 2, 3] becomes [2, 4, 6]. *)
Theorem double_array_spec :
  (forall size : Z, double_array NULL size = Some NULL) /\
  (forall (a : list Z) (size : Z),
     size <= 0 -> double_array (Ptr a) size = Some (Ptr a)) /\
  (forall (a : list Z) (size : Z),
     0 < size <= Z.of_nat (length a) ->
     double_array (Ptr a) size
       = Some (Ptr (map (fun e => wrap_int (e * 2)) (take (Z.to_nat size) a)
                    ++ drop (Z.to_nat size) a))) /\
  double_array (Ptr [1; 2; 3]) 3 = Some (Ptr [2; 4; 6]).
Proof.
  split; [|split; [|split]]; try reflexivity.
  - intros a size Hsize. simpl.
    destruct (Z.leb_spec size 0); [reflexivity|lia].
  - intros a size Hsize. simpl.
    destruct (Z.leb_spec size 0); [lia|].
    rewrite double_array_loop by lia. reflexivity.
Qed.

Lemma double_array_spec_witness :
  double_array (Ptr [5; 6; 7]) 0 = Some (Ptr [5; 6; 7]) /\
  double_array (Ptr [1; 2 ^ 30; -3; 9]) 3 = Some (Ptr [2; INT_MIN; -6; 9]).
Proof.
  destruct double_array_spec as (_ & Hnonpos & Hdbl & _).
  split.
  - apply (Hnonpos [5; 6; 7] 0). lia.
  - rewrite (Hdbl [1; 2 ^ 30; -3; 9] 3) by (simpl; lia). reflexivity.
Defined.

(** ** Strings *)

Section Strings.

Lemma strlen_terminated (s rest : list ascii) :
  NUL ∉ s -> strlen (s ++ NUL :: rest) = Some (Z.of_nat (length s)).
Proof.
  induction s as [|c s IH]; intros Hs.
  - reflexivity.
  - apply not_elem_of_cons in Hs as [Hc Hs].
    cbn [app strlen].
    destruct (Ascii.eqb_spec c NUL) as [->|_]; [congruence|].
    rewrite (IH Hs). cbn [mbind option_bind length]. f_equal. lia.
Qed.

(** A storage on which [strlen] is defined is some content without
    terminator, a terminator, and whatever follows. *)
Lemma strlen_Some_inv (buf : list ascii) (n : Z) :
  strlen buf = Some n ->
  exists s rest,
    buf = s ++ NUL :: rest /\ (NUL ∉ s) /\ n = Z.of_nat (length s).
Proof.
  revert n. induction buf as [|c buf IH]; intros n; cbn [strlen].
  - discriminate.
  - destruct (Ascii.eqb_spec c NUL) as [->|Hc].
    + intros [= <-]. exists [], buf. split; [reflexivity|].
      split; [apply not_elem_of_nil|reflexivity].
    + destruct (strlen buf) as [m|]; [|discriminate].
      intros [= <-].
      destruct (IH m eq_refl) as (s & rest & -> & Hs & ->).
      exists (c :: s), rest. split; [reflexivity|].
      split; [|cbn [length]; lia].
      apply not_elem_of_cons. split; [congruence|exact Hs].
Qed.

Lemma wrap_int_le z : 0 <= z -> 0 <= wrap_int z -> wrap_int z <= z.
Proof.
  unfold wrap_int. intros Hz Hw.
  pose proof (Z.mod_le (z + 2 ^ 31) (2 ^ 32) ltac:(lia) ltac:(lia)). lia.
Qed.

Lemma half_bounds (n : Z) :
  0 <= n -> 0 <= n `quot` 2 /\ 2 * (n `quot` 2) <= n < 2 * (n `quot` 2) + 2.
Proof.
  intros Hn. rewrite Z.quot_div_nonneg by lia.
  pose proof (Z.div_mod n 2 ltac:(lia)).
  pose proof (Z.mod_pos_bound n 2 ltac:(lia)). lia.
Qed.

(** The loop of [reverse_string] run with length [n] on a storage of at
    least [n] cells reverses the first [n] cells and keeps the others. *)
Lemma reverse_loop (l : list ascii) (n : nat) :
  (n <= length l)%nat ->
  for_upto (Z.of_nat n `quot` 2) (reverse_step (Z.of_nat n)) l
    = Some (reversed_prefix n l).
Proof.
  intros Hn.
  destruct (half_bounds (Z.of_nat n) ltac:(lia)) as (Hq0 & Hq).
  set (q := Z.of_nat n `quot` 2) in *.
  set (Inv := fun (j : Z) (cur : list ascii) =>
    length cur = length l /\
    (forall k : nat, (k < Z.to_nat j \/ n - Z.to_nat j <= k < n)%nat ->
                     cur !! k = l !! (n - 1 - k)%nat) /\
    (forall k : nat, ~ (k < Z.to_nat j \/ n - Z.to_nat j <= k < n)%nat ->
                     cur !! k = l !! k)).
  destruct (for_upto_invariant Inv (reverse_step (Z.of_nat n)) q l)
    as (cur & Hrun & Hlen & Hswapped & Hkept).
  - exact Hq0.
  - split; [reflexivity|]. split; [intros k Hk; lia|reflexivity].
  - intros j cur Hj (Hlen & Hswapped & Hkept).
    destruct (lookup_lt_is_Some_2 l (Z.to_nat j)) as [temp Htemp]; [lia|].
    destruct (lookup_lt_is_Some_2 l (n - 1 - Z.to_nat j)%nat) as [c Hc];
      [lia|].
    assert (Hhi : Z.to_nat (Z.of_nat n - 1 - j) = (n - 1 - Z.to_nat j)%nat)
      by lia.
    exists (<[(n - 1 - Z.to_nat j)%nat := temp]> (<[Z.to_nat j := c]> cur)).
    split.
    + unfold reverse_step.
      rewrite (load_Some cur j temp);
        [|lia|rewrite Hkept by lia; exact Htemp].
      rewrite (load_Some cur (Z.of_nat n - 1 - j) c);
        [|lia|rewrite Hhi, Hkept by lia; exact Hc].
      cbn [mbind option_bind].
      rewrite store_Some by lia. cbn [mbind option_bind].
      rewrite store_Some by (rewrite length_insert; lia).
      rewrite Hhi. reflexivity.
    + split; [now rewrite !length_insert|].
      replace (Z.to_nat (j + 1)) with (S (Z.to_nat j)) by lia.
      split; intros k Hk.
      * destruct (decide (k = (n - 1 - Z.to_nat j)%nat)) as [->|Hk1].
        { rewrite list_lookup_insert_eq by (rewrite length_insert; lia).
          rewrite <- Htemp. f_equal. lia. }
        rewrite list_lookup_insert_ne by lia.
        destruct (decide (k = Z.to_nat j)) as [->|Hk2].
        { rewrite list_lookup_insert_eq by lia. now rewrite <- Hc. }
        rewrite list_lookup_insert_ne by lia.
        apply Hswapped. lia.
      * rewrite !list_lookup_insert_ne by lia.
        apply Hkept. lia.
  - rewrite Hrun. f_equal. apply list_eq. intros k. unfold reversed_prefix.
    assert (Hrl : length (reverse (take n l)) = n)
      by (rewrite length_reverse, length_take; lia).
    destruct (decide (k < n)%nat) as [Hk|Hk].
    + rewrite lookup_app_l by lia.
      rewrite reverse_lookup by (rewrite length_take; lia).
      rewrite length_take, lookup_take_lt by lia.
      replace (n `min` length l - S k)%nat with (n - 1 - k)%nat by lia.
      destruct (decide (k < Z.to_nat q \/ n - Z.to_nat q <= k < n)%nat)
        as [Hin|Hout].
      * apply Hswapped, Hin.
      * rewrite Hkept by exact Hout. f_equal. lia.
    + rewrite lookup_app_r by lia.
      rewrite lookup_drop, Hrl, Hkept by lia. f_equal. lia.
Qed.

Lemma reversed_prefix_0 {A : Type} (l : list A) : reversed_prefix 0 l = l.
Proof. reflexivity. Qed.

Lemma reversed_prefix_all {A : Type} (k : nat) (l : list A) :
  (length l <= k)%nat -> reversed_prefix k l = reverse l.
Proof.
  intros H. unfold reversed_prefix.
  now rewrite take_ge, drop_ge, app_nil_r by lia.
Qed.

Lemma reversed_prefix_length {A : Type} (k : nat) (l : list A) :
  length (reversed_prefix k l) = length l.
Proof.
  unfold reversed_prefix.
  rewrite length_app, length_reverse, <- length_app.
  now rewrite take_drop.
Qed.

Lemma reversed_prefix_Permutation {A : Type} (k : nat) (l : list A) :
  Permutation (reversed_prefix k l) l.
Proof.
  unfold reversed_prefix.
  rewrite reverse_Permutation. now rewrite take_drop.
Qed.

Lemma reversed_prefix_involutive {A : Type} (k : nat) (l : list A) :
  (k <= length l)%nat -> reversed_prefix k (reversed_prefix k l) = l.
Proof.
  intros H. unfold reversed_prefix.
  assert (Hlen : length (reverse (take k l)) = k)
    by (rewrite length_reverse, length_take; lia).
  rewrite take_app_length', drop_app_length' by (symmetry; exact Hlen).
  rewrite reverse_involutive. apply take_drop.
Qed.

Lemma reversed_prefix_app {A : Type} (k : nat) (l rest : list A) :
  (k <= length l)%nat ->
  reversed_prefix k (l ++ rest) = reversed_prefix k l ++ rest.
Proof.
  intros H. unfold reversed_prefix.
  now rewrite take_app_le, drop_app_le, app_assoc by lia.
Qed.

(** The length [reverse_string] works with: the [int] that the count of
    characters converts to, or nothing when that [int] is negative. *)
Lemma reverse_string_terminated (s rest : list ascii) :
  NUL ∉ s ->
  reverse_string (Ptr (s ++ NUL :: rest)) =
    Some (Ptr (reversed_prefix (Z.to_nat (wrap_int (Z.of_nat (length s)))) s
               ++ NUL :: rest)) /\
  (Z.to_nat (wrap_int (Z.of_nat (length s))) <= length s)%nat.
Proof.
  intros Hs.
  assert (Hk : (Z.to_nat (wrap_int (Z.of_nat (length s))) <= length s)%nat).
  { destruct (Z.le_gt_cases 0 (wrap_int (Z.of_nat (length s)))) as [H|H].
    - pose proof (wrap_int_le (Z.of_nat (length s)) ltac:(lia) H). lia.
    - lia. }
  split; [|exact Hk].
  destruct s as [|c s].
  - cbn [app reverse_string load]. cbn. reflexivity.
  - unfold reverse_string.
    change (load ((c :: s) ++ NUL :: rest) 0) with (Some c).
    cbn [mbind option_bind].
    apply not_elem_of_cons in Hs as Hs'. destruct Hs' as [Hc Hs'].
    destruct (Ascii.eqb_spec c NUL) as [->|_]; [congruence|].
    rewrite (strlen_terminated (c :: s) rest Hs). cbn [mbind option_bind].
    set (len := wrap_int (Z.of_nat (length (c :: s)))) in *.
    destruct (Z.le_gt_cases len 0) as [Hlen|Hlen].
    + rewrite for_upto_nonpos
        by (apply Z.quot_le_upper_bound; lia).
      replace (Z.to_nat len) with O by lia. reflexivity.
    + replace len with (Z.of_nat (Z.to_nat len)) at 1 2 by lia.
      rewrite reverse_loop by (rewrite length_app; lia).
      now rewrite reversed_prefix_app by exact Hk.
Qed.

Lemma string_length_terminated (s rest : list ascii) :
  NUL ∉ s ->
  string_length (Ptr (s ++ NUL :: rest))
    = Some (wrap_int (Z.of_nat (length s))).
Proof.
  intros Hs. unfold string_length.
  now rewrite strlen_terminated by exact Hs.
Qed.

End Strings.

(** C7, as stated, fails: the count of characters is converted to [int], so
    the text of [2^31] characters has the length [-2^31]. *)
Lemma string_length_long_text :
  (NUL ∉ long_text) /\
  Z.of_nat (length long_text) = 2 ^ 31 /\
  string_length (Ptr (long_text ++ [NUL])) = Some (- 2 ^ 31).
Proof.
  assert (Hnul : NUL ∉ long_text).
  { unfold long_text. intros H%elem_of_replicate_inv. discriminate H. }
  assert (Hlen : Z.of_nat (length long_text) = 2 ^ 31).
  { unfold long_text. rewrite length_replicate. apply Z2Nat.id. lia. }
  split; [exact Hnul|]. split; [exact Hlen|].
  rewrite (string_length_terminated long_text [] Hnul), Hlen. reflexivity.
Qed.

(** C7, amended: [string_length] returns the count of characters of a
    string of at most [2^31 - 1] characters, and [0] for a null reference;
    the length of ["hello"] is [5]. *)
Theorem string_length_spec :
  string_length NULL = Some 0 /\
  (forall s rest : list ascii,
     NUL ∉ s -> Z.of_nat (length s) <= INT_MAX ->
     string_length (Ptr (s ++ NUL :: rest)) = Some (Z.of_nat (length s))) /\
  string_length (Ptr (chars "hello" ++ [NUL])) = Some 5.
Proof.
  split; [reflexivity|]. split; [|reflexivity].
  intros s rest Hs Hlen.
  rewrite string_length_terminated by exact Hs.
  rewrite wrap_int_id; [reflexivity|].
  unfold in_int, INT_MIN, INT_MAX in *. lia.
Qed.

Lemma string_length_spec_witness :
  string_length (Ptr (chars "MathLib" ++ NUL :: chars "v1")) = Some 7.
Proof.
  apply (proj1 (proj2 string_length_spec) (chars "MathLib") (chars "v1")).
  - intros H. repeat (apply elem_of_cons in H as [H|H]; [discriminate H|]).
    now apply elem_of_nil in H.
  - unfold INT_MAX. simpl. lia.
Defined.

(** C3, as stated, fails: on the word of [2^31] characters the length
    converts to the [int] [-2^31], the loop makes no trip, and the buffer
    comes back as it was, which is not its reversal. *)
Lemma reverse_string_long_word :
  (NUL ∉ long_word) /\
  reverse_string (Ptr (long_word ++ [NUL])) = Some (Ptr (long_word ++ [NUL])) /\
  long_word <> reverse long_word.
Proof.
  unfold long_word.
  assert (HN : Z.of_nat (Z.to_nat INT_MAX) = INT_MAX)
    by (apply Z2Nat.id; unfold INT_MAX; lia).
  generalize dependent (Z.to_nat INT_MAX). intros N HN.
  assert (Hnul : NUL ∉ replicate N "a"%char ++ ["b"%char]).
  { apply not_elem_of_app. split.
    - intros H%elem_of_replicate_inv. discriminate H.
    - intros H%list_elem_of_singleton. discriminate H. }
  split; [exact Hnul|]. split.
  - destruct (reverse_string_terminated _ [] Hnul) as [-> _].
    rewrite length_app, length_replicate. cbn [length].
    replace (Z.of_nat (N + 1)) with (2 ^ 31) by (unfold INT_MAX in HN; lia).
    change (Z.to_nat (wrap_int (2 ^ 31))) with O.
    now rewrite reversed_prefix_0.
  - rewrite reverse_snoc. destruct N as [|N].
    + unfold INT_MAX in HN. simpl in HN. lia.
    + cbn [replicate app]. intros [= H].
Qed.

(** C3, amended: applied twice to any buffer, [reverse_string] restores
    it; applied once to a content of at most [2^31 - 1] characters it
    reverses the order of the characters, ["abc"] becoming ["cba"]; it is
    a no-op on a null reference and on an empty content. *)
Theorem reverse_string_spec :
  (forall s rest : list ascii,
     NUL ∉ s ->
     exists once : list ascii,
       reverse_string (Ptr (s ++ NUL :: rest)) = Some (Ptr once) /\
       reverse_string (Ptr once) = Some (Ptr (s ++ NUL :: rest))) /\
  (forall s rest : list ascii,
     NUL ∉ s -> Z.of_nat (length s) <= INT_MAX ->
     reverse_string (Ptr (s ++ NUL :: rest))
       = Some (Ptr (reverse s ++ NUL :: rest))) /\
  reverse_string (Ptr (chars "abc" ++ [NUL]))
    = Some (Ptr (chars "cba" ++ [NUL])) /\
  reverse_string NULL = Some NULL /\
  (forall rest : list ascii,
     reverse_string (Ptr (NUL :: rest)) = Some (Ptr (NUL :: rest))).
Proof.
  split; [|split; [|split; [|split]]]; try reflexivity.
  - intros s rest Hs.
    destruct (reverse_string_terminated s rest Hs) as [Hrun Hk].
    set (k := Z.to_nat (wrap_int (Z.of_nat (length s)))) in *.
    exists (reversed_prefix k s ++ NUL :: rest). split; [exact Hrun|].
    assert (Hs' : NUL ∉ reversed_prefix k s).
    { intros H. apply Hs.
      now rewrite (reversed_prefix_Permutation k s) in H. }
    destruct (reverse_string_terminated _ rest Hs') as [-> _].
    rewrite reversed_prefix_length. fold k.
    now rewrite reversed_prefix_involutive by exact Hk.
  - intros s rest Hs Hlen.
    destruct (reverse_string_terminated s rest Hs) as [-> _].
    rewrite wrap_int_id by (unfold in_int, INT_MIN, INT_MAX in *; lia).
    now rewrite reversed_prefix_all by lia.
Qed.

Lemma reverse_string_spec_witness :
  reverse_string (Ptr (chars "mathlib" ++ NUL :: chars "xy"))
    = Some (Ptr (chars "bilhtam" ++ NUL :: chars "xy")) /\
  exists once : list ascii,
    reverse_string (Ptr (chars "mathlib" ++ NUL :: chars "xy"))
      = Some (Ptr once) /\
    reverse_string (Ptr once)
      = Some (Ptr (chars "mathlib" ++ NUL :: chars "xy")).
Proof.
  destruct reverse_string_spec as (Htwice & Honce & _).
  assert (Hs : NUL ∉ chars "mathlib") by no_nul.
  split.
  - rewrite (Honce (chars "mathlib") (chars "xy") Hs)
      by (unfold INT_MAX; simpl; lia).
    reflexivity.
  - apply (Htwice (chars "mathlib") (chars "xy") Hs).
Defined.

(** C10, as stated, fails: on the word of [2^32 + 2] characters the length
    converts to the [int] [2], so only the first two characters change
    places; the result is a permutation of the word but not its reversal,
    which starts with ['c']. *)
Lemma reverse_string_wrapped_word :
  (NUL ∉ wrapped_word) /\
  reverse_string (Ptr (wrapped_word ++ [NUL]))
    = Some (Ptr ("b"%char :: "a"%char
                 :: replicate (Z.to_nat (2 ^ 32)) "c"%char ++ [NUL])) /\
  "b"%char :: "a"%char :: replicate (Z.to_nat (2 ^ 32)) "c"%char
    <> reverse wrapped_word.
Proof.
  unfold wrapped_word.
  assert (HN : Z.of_nat (Z.to_nat (2 ^ 32)) = 2 ^ 32) by (apply Z2Nat.id; lia).
  generalize dependent (Z.to_nat (2 ^ 32)). intros N HN.
  assert (Hnul : NUL ∉ "a"%char :: "b"%char :: replicate N "c"%char).
  { intros H. apply elem_of_cons in H as [H|H]; [discriminate H|].
    apply elem_of_cons in H as [H|H]; [discriminate H|].
    apply elem_of_replicate_inv in H. discriminate H. }
  split; [exact Hnul|]. split.
  - destruct (reverse_string_terminated _ [] Hnul) as [-> _].
    cbn [length]. rewrite length_replicate.
    replace (Z.of_nat (S (S N))) with (2 ^ 32 + 2) by lia.
    change (Z.to_nat (wrap_int (2 ^ 32 + 2))) with 2%nat.
    reflexivity.
  - rewrite !reverse_cons, reverse_replicate. destruct N as [|N].
    + simpl in HN. lia.
    + cbn [replicate app]. intros [= H].
Qed.

(** C10, amended: whatever the buffer, [reverse_string] leaves in it a
    content of the same length that is a permutation of the original one,
    the terminator where it was and the storage behind it untouched; that
    content is the reversal for a content of at most [2^31 - 1]
    characters. *)
Theorem reverse_string_preserves (s rest : list ascii) :
  NUL ∉ s ->
  exists s' : list ascii,
    reverse_string (Ptr (s ++ NUL :: rest)) = Some (Ptr (s' ++ NUL :: rest)) /\
    length s' = length s /\
    Permutation s' s /\
    strlen (s' ++ NUL :: rest) = strlen (s ++ NUL :: rest) /\
    (Z.of_nat (length s) <= INT_MAX -> s' = reverse s).
Proof.
  intros Hs.
  destruct (reverse_string_terminated s rest Hs) as [Hrun Hk].
  set (k := Z.to_nat (wrap_int (Z.of_nat (length s)))) in *.
  exists (reversed_prefix k s).
  assert (Hs' : NUL ∉ reversed_prefix k s).
  { intros H. apply Hs.
    now rewrite (reversed_prefix_Permutation k s) in H. }
  split; [exact Hrun|].
  split; [apply reversed_prefix_length|].
  split; [apply reversed_prefix_Permutation|].
  split.
  - rewrite !strlen_terminated by assumption.
    now rewrite reversed_prefix_length.
  - intros Hlen. subst k.
    rewrite wrap_int_id by (unfold in_int, INT_MIN, INT_MAX in *; lia).
    apply reversed_prefix_all. lia.
Qed.

Lemma reverse_string_preserves_witness :
  exists s' : list ascii,
    reverse_string (Ptr (chars "hello" ++ NUL :: chars "tail"))
      = Some (Ptr (s' ++ NUL :: chars "tail")) /\
    length s' = 5%nat /\
    Permutation s' (chars "hello") /\
    strlen (s' ++ NUL :: chars "tail") = Some 5 /\
    s' = chars "olleh".
Proof.
  destruct (reverse_string_preserves (chars "hello") (chars "tail"))
    as (s' & Hrun & Hlen & Hperm & Hstr & Hrev); [no_nul|].
  exists s'. split; [exact Hrun|]. split; [exact Hlen|].
  split; [exact Hperm|]. split; [exact Hstr|].
  apply Hrev. unfold INT_MAX. simpl. lia.
Defined.


(** * Further properties of the library *)

(** ** Integer arithmetic *)

(** X1: [add] is commutative and associative, overflow or not. *)
Theorem add_comm_assoc (a b c : Z) :
  add a b = add b a /\ add (add a b) c = add a (add b c).
Proof.
  unfold add. split.
  - now rewrite Z.add_comm.
  - rewrite wrap_int_add_l, (Z.add_comm a (wrap_int _)), wrap_int_add_l.
    f_equal. lia.
Qed.

(** X2: on [int] arguments [add] and [subtract] return the exact result when
    it fits, the result less [2^32] when it exceeds [INT_MAX], and the result
    plus [2^32] when it is below [INT_MIN]. *)
Theorem add_subtract_overflow (a b : Z) :
  in_int a -> in_int b ->
  (in_int (a + b) -> add a b = a + b) /\
  (INT_MAX < a + b -> add a b = a + b - 2 ^ 32) /\
  (a + b < INT_MIN -> add a b = a + b + 2 ^ 32) /\
  (in_int (a - b) -> subtract a b = a - b) /\
  (INT_MAX < a - b -> subtract a b = a - b - 2 ^ 32) /\
  (a - b < INT_MIN -> subtract a b = a - b + 2 ^ 32).
Proof.
  unfold in_int, INT_MIN, INT_MAX, add, subtract. intros Ha Hb.
  assert (Hfit : forall z, - 2 ^ 31 <= z <= 2 ^ 31 - 1 -> wrap_int z = z).
  { intros z Hz. unfold wrap_int. rewrite Z.mod_small by lia. lia. }
  assert (Hhigh : forall z, 2 ^ 31 - 1 < z < 2 ^ 32 ->
                            wrap_int z = z - 2 ^ 32).
  { intros z Hz. unfold wrap_int.
    rewrite <- (Z.mod_unique (z + 2 ^ 31) (2 ^ 32) 1 (z + 2 ^ 31 - 2 ^ 32));
      lia. }
  assert (Hlow : forall z, - 2 ^ 32 <= z < - 2 ^ 31 ->
                           wrap_int z = z + 2 ^ 32).
  { intros z Hz. unfold wrap_int.
    rewrite <- (Z.mod_unique (z + 2 ^ 31) (2 ^ 32) (-1) (z + 2 ^ 31 + 2 ^ 32));
      lia. }
  repeat split; intros H;
    first [apply Hfit; lia | apply Hhigh; lia | apply Hlow; lia].
Qed.

Lemma add_subtract_overflow_witness :
  add INT_MAX INT_MAX = -2 /\ subtract INT_MIN 1 = INT_MAX /\ add 20 22 = 42.
Proof.
  assert (Hmax : in_int INT_MAX) by (unfold in_int, INT_MIN, INT_MAX; lia).
  assert (Hmin : in_int INT_MIN) by (unfold in_int, INT_MIN, INT_MAX; lia).
  assert (H1 : in_int 1) by (unfold in_int, INT_MIN, INT_MAX; lia).
  assert (H20 : in_int 20) by (unfold in_int, INT_MIN, INT_MAX; lia).
  assert (H22 : in_int 22) by (unfold in_int, INT_MIN, INT_MAX; lia).
  split; [|split].
  - destruct (add_subtract_overflow INT_MAX INT_MAX Hmax Hmax)
      as (_ & H & _).
    rewrite H by (unfold INT_MAX; lia). reflexivity.
  - destruct (add_subtract_overflow INT_MIN 1 Hmin H1)
      as (_ & _ & _ & _ & _ & H).
    rewrite H by (unfold INT_MIN; lia). reflexivity.
  - destruct (add_subtract_overflow 20 22 H20 H22) as (H & _).
    apply H. unfold in_int, INT_MIN, INT_MAX. lia.
Defined.

(** X3: adding back what was subtracted restores an [int], whatever wrapped
    on the way. *)
Theorem add_subtract_cancel (a b : Z) :
  in_int a -> add (subtract a b) b = a.
Proof.
  intros Ha. unfold add, subtract.
  rewrite wrap_int_add_l.
  replace (a - b + b) with a by lia.
  apply wrap_int_id, Ha.
Qed.

Lemma add_subtract_cancel_witness :
  subtract INT_MIN 5 = INT_MAX - 4 /\ add (subtract INT_MIN 5) 5 = INT_MIN.
Proof.
  split; [reflexivity|].
  apply (add_subtract_cancel INT_MIN 5).
  unfold in_int, INT_MIN, INT_MAX. lia.
Defined.

(** X4: the difference of two [int]s is [0] exactly when they are equal:
    wrap-around never makes distinct values compare equal through
    [subtract]. *)
Theorem subtract_zero_iff (a b : Z) :
  in_int a -> in_int b -> (subtract a b = 0 <-> a = b).
Proof.
  unfold in_int, INT_MIN, INT_MAX, subtract, wrap_int. intros Ha Hb.
  pose proof (Z.div_mod (a - b + 2 ^ 31) (2 ^ 32) ltac:(lia)) as Hdm.
  pose proof (Z.mod_pos_bound (a - b + 2 ^ 31) (2 ^ 32) ltac:(lia)) as Hr.
  split.
  - intros H. lia.
  - intros ->. rewrite Z.sub_diag. reflexivity.
Qed.

Lemma subtract_zero_iff_witness :
  subtract INT_MIN INT_MAX = 1 /\
  (subtract INT_MIN INT_MAX = 0 <-> INT_MIN = INT_MAX).
Proof.
  split; [reflexivity|].
  apply (subtract_zero_iff INT_MIN INT_MAX);
    unfold in_int, INT_MIN, INT_MAX; lia.
Defined.

(** ** Double-precision arithmetic *)

Section FloatFacts.

Lemma signed_not_nan s a : signed s a = true -> is_nan a = false.
Proof. destruct a; simpl; congruence. Qed.

Lemma binary_round_aux_not_nan sx mx ex lx :
  0 <= mx -> is_nan (binary_round_aux b64_prec b64_emax sx mx ex lx) = false.
Proof.
  intros H. apply (signed_not_nan sx), binary_round_aux_signed, H.
Qed.

(** The sign given to the rounding is the only place where it occurs. *)
Lemma binary_round_aux_opp sx mx ex lx :
  binary_round_aux b64_prec b64_emax (negb sx) mx ex lx
    = fopp (binary_round_aux b64_prec b64_emax sx mx ex lx).
Proof.
  unfold binary_round_aux.
  destruct (shr_fexp b64_prec b64_emax mx ex lx) as [mrs' e'].
  destruct (shr_fexp b64_prec b64_emax _ e' loc_Exact) as [mrs'' e''].
  destruct (shr_m mrs'') as [|m|m]; try reflexivity.
  destruct (e'' <=? b64_emax - b64_prec); reflexivity.
Qed.

Lemma binary_normalize_opp m e :
  binary_normalize b64_prec b64_emax (- m) e false
    = fopp (binary_normalize b64_prec b64_emax m e false)
  \/ m = 0.
Proof.
  destruct m as [|p|p]; [right; reflexivity| |]; left; simpl;
    unfold binary_round; destruct (shl_align p e _) as [mz ez].
  - apply (binary_round_aux_opp false).
  - rewrite (binary_round_aux_opp false). unfold fopp.
    now destruct (binary_round_aux _ _ false _ _ _) as [[]|[]| |[] ? ?].
Qed.

(** Swapping the operands of a subtraction negates the difference, except
    that equal operands give [+0] both ways. *)
Lemma fsub_swap a b :
  fsub b a = fopp (fsub a b) \/ (fsub a b = pzero /\ fsub b a = pzero).
Proof.
  destruct a as [sa|sa| |sa ma ea], b as [sb|sb| |sb mb eb];
    try (left; reflexivity);
    try (destruct sa, sb; (left; reflexivity) || (right; split; reflexivity)).
  simpl. rewrite (Z.min_comm eb ea).
  set (A := cond_Zopp sa _). set (B := cond_Zopp sb _).
  destruct (binary_normalize_opp (A - B) (Z.min ea eb)) as [H|H].
  - left. rewrite <- H. f_equal. lia.
  - right. rewrite H. replace (B - A) with 0 by lia. split; reflexivity.
Qed.

Lemma fmul_opp_opp d : fmul (fopp d) (fopp d) = fmul d d.
Proof.
  destruct d as [s|s| |s m e]; simpl; try reflexivity;
    now destruct s.
Qed.

Lemma fsub_square_swap a b :
  fmul (fsub b a) (fsub b a) = fmul (fsub a b) (fsub a b).
Proof.
  destruct (fsub_swap a b) as [->|[-> ->]]; [apply fmul_opp_opp|reflexivity].
Qed.

Lemma fmul_comm a b : fmul a b = fmul b a.
Proof.
  destruct a as [sa|sa| |sa ma ea], b as [sb|sb| |sb mb eb]; simpl;
    try reflexivity; try (now rewrite xorb_comm).
  now rewrite xorb_comm, Pos.mul_comm, Z.add_comm.
Qed.

End FloatFacts.

(** X5: [multiply_double] is commutative: the two products are NaN
    together, and when they are not NaN they are the same double, sign,
    exponent and mantissa. *)
Theorem multiply_double_comm (a b : double) :
  is_nan (multiply_double a b) = is_nan (multiply_double b a) /\
  (is_nan (multiply_double a b) = false ->
   multiply_double a b = multiply_double b a).
Proof.
  unfold multiply_double. rewrite (fmul_comm a b). split; reflexivity.
Qed.

Lemma multiply_double_comm_witness :
  multiply_double (double_of_Z (-3)) (S754_infinity false)
    = S754_infinity true /\
  multiply_double (double_of_Z (-3)) (S754_infinity false)
    = multiply_double (S754_infinity false) (double_of_Z (-3)).
Proof.
  split; [reflexivity|].
  apply (multiply_double_comm (double_of_Z (-3)) (S754_infinity false)).
  reflexivity.
Defined.

(** X6: [multiply_double] returns NaN exactly when an operand is NaN or the
    operands are a zero and an infinity; in particular never on finite
    operands. *)
Theorem multiply_double_nan (a b : double) :
  is_nan (multiply_double a b)
    = is_nan a || is_nan b || (is_zero a && is_inf b)
      || (is_inf a && is_zero b).
Proof.
  unfold multiply_double.
  destruct a as [sa|sa| |sa ma ea], b as [sb|sb| |sb mb eb]; try reflexivity.
  simpl. apply binary_round_aux_not_nan. lia.
Qed.

(** X7: [divide_double] returns NaN exactly when the divisor is not a zero
    and an operand is NaN or both are infinities.  A zero divided by a zero
    is therefore not NaN but the sentinel. *)
Theorem divide_double_nan (a b : double) :
  is_nan (divide_double a b)
    = negb (is_zero b) && (is_nan a || is_nan b || (is_inf a && is_inf b)).
Proof.
  unfold divide_double.
  destruct a as [sa|sa| |sa ma ea], b as [sb|sb| |sb mb eb]; try reflexivity;
    try (destruct sb; reflexivity).
  replace (feqb (S754_finite sb mb eb) pzero) with false
    by (destruct sb; reflexivity).
  simpl. unfold SFdiv_core_binary.
  set (m' := match _ - _ - _ with 0 => _ | Z.pos _ => _ | Z.neg _ => 0 end).
  assert (Hm' : 0 <= m').
  { subst m'. destruct (_ - _ - _); try lia. apply Z.shiftl_nonneg. lia. }
  pose proof (Z.div_pos m' (Z.pos mb) Hm' ltac:(lia)) as Hq.
  unfold Z.div in Hq.
  destruct (Z.div_eucl m' (Z.pos mb)) as [q r]. simpl in Hq.
  apply binary_round_aux_not_nan, Hq.
Qed.

(** X8: a finite non-zero double divided by itself is exactly [1.0]. *)
Theorem divide_double_self (a : double) :
  is_finite a = true -> is_zero a = false ->
  divide_double a a = double_of_Z 1.
Proof.
  destruct a as [s|s| |s m e]; try discriminate. intros _ _.
  unfold divide_double.
  replace (feqb (S754_finite s m e) pzero) with false
    by (destruct s; reflexivity).
  unfold fdiv, SFdiv, SFdiv_core_binary.
  rewrite !Z.sub_diag.
  change (Z.min (fexp b64_prec b64_emax 0) 0) with (-53).
  change (0 - -53) with 53.
  assert (Hdiv : Z.div_eucl (Z.shiftl (Z.pos m) 53) (Z.pos m) = (2 ^ 53, 0)).
  { pose proof (Z.div_eucl_eq (Z.shiftl (Z.pos m) 53) (Z.pos m) ltac:(lia))
      as H.
    pose proof (Z.mod_pos_bound (Z.shiftl (Z.pos m) 53) (Z.pos m) ltac:(lia))
      as Hr.
    unfold Z.modulo in Hr.
    destruct (Z.div_eucl (Z.shiftl (Z.pos m) 53) (Z.pos m)) as [q r].
    rewrite Z.shiftl_mul_pow2 in H by lia.
    assert (q = 2 ^ 53) by nia. subst q.
    f_equal. lia. }
  cbv iota. rewrite Hdiv.
  replace (xorb s s) with false by (destruct s; reflexivity).
  replace (new_location (Z.pos m) 0) with loc_Exact
    by (unfold new_location; destruct (Z.even (Z.pos m)); reflexivity).
  vm_compute. reflexivity.
Qed.

Lemma divide_double_self_witness :
  divide_double (double_of_Z (-3)) (double_of_Z (-3)) = double_of_Z 1 /\
  divide_double tiny_point.(x) tiny_point.(x) = double_of_Z 1.
Proof.
  split.
  - apply (divide_double_self (double_of_Z (-3))); reflexivity.
  - apply (divide_double_self (x tiny_point)); reflexivity.
Defined.

Section TimesOne.

Lemma digits2_pos_shift (n : nat) (m : positive) :
  Z.pos (digits2_pos (Nat.iter n xO m)) = Z.pos (digits2_pos m) + Z.of_nat n.
Proof. induction n as [|n IH]; simpl; lia. Qed.

(** Rounding [m * 2^52 * 2^(e - 52)] gives back the double [m * 2^e]. *)
Lemma binary_round_aux_times_one s m e :
  canonical_mantissa b64_prec b64_emax m e = true ->
  (e <=? b64_emax - b64_prec) = true ->
  binary_round_aux b64_prec b64_emax s
    (Z.pos (m * 4503599627370496)) (e + -52) loc_Exact
  = S754_finite s m e.
Proof.
  unfold canonical_mantissa. intros Hc%Z.eqb_eq Hb.
  rewrite Pos.mul_comm.
  change (4503599627370496 * m)%positive with (Nat.iter 52 xO m).
  unfold binary_round_aux, shr_fexp, Zdigits2.
  rewrite digits2_pos_shift.
  replace (Z.pos (digits2_pos m) + Z.of_nat 52 + (e + -52))
    with (Z.pos (digits2_pos m) + e) by lia.
  rewrite Hc. replace (e - (e + -52)) with 52 by lia.
  change (shr (shr_record_of_loc (Z.pos (Nat.iter 52 xO m)) loc_Exact)
            (e + -52) 52)
    with ({| shr_m := Z.pos m; shr_r := false; shr_s := false |}, e + -52 + 52).
  cbn [shr_m loc_of_shr_record round_nearest_even shr_record_of_loc].
  replace (e + -52 + 52) with e by lia.
  rewrite Hc, Z.sub_diag. cbn [shr shr_m]. rewrite Hb. reflexivity.
Qed.

End TimesOne.

(** X9: multiplying a double that is not NaN by [1.0], on either side,
    returns it unchanged: zeros keep their sign, infinities stay, and a
    finite number is not rounded.  A NaN gives a NaN. *)
Theorem multiply_double_one (a : double) :
  is_double a = true ->
  (is_nan a = false ->
   multiply_double a (double_of_Z 1) = a /\
   multiply_double (double_of_Z 1) a = a) /\
  (is_nan a = true ->
   is_nan (multiply_double a (double_of_Z 1)) = true /\
   is_nan (multiply_double (double_of_Z 1) a) = true).
Proof.
  intros Ha.
  assert (H : multiply_double a (double_of_Z 1) = a).
  { destruct a as [s|s| |s m e]; try (now destruct s).
    - reflexivity.
    - unfold is_double, valid_binary, bounded in Ha.
      apply andb_prop in Ha as [Hc Hb].
      change (double_of_Z 1) with (S754_finite false 4503599627370496 (-52)).
      unfold multiply_double, fmul, SFmul.
      rewrite xorb_false_r. now apply binary_round_aux_times_one. }
  assert (H' : multiply_double (double_of_Z 1) a = a).
  { unfold multiply_double in *. now rewrite fmul_comm. }
  split; intros Hn.
  - split; assumption.
  - now rewrite H, H'.
Qed.

Lemma multiply_double_one_witness :
  is_double (x tiny_point) = true /\
  multiply_double (x tiny_point) (double_of_Z 1) = x tiny_point /\
  multiply_double (double_of_Z 1) (S754_zero true) = S754_zero true /\
  is_nan (multiply_double S754_nan (double_of_Z 1)) = true.
Proof.
  split; [reflexivity|]. split; [|split].
  - apply (multiply_double_one (x tiny_point)); reflexivity.
  - apply (multiply_double_one (S754_zero true)); reflexivity.
  - apply (multiply_double_one S754_nan); reflexivity.
Defined.

(** ** Struct operations *)

(** X10: [distance] is symmetric: [distance p1 p2] and [distance p2 p1]
    are NaN together, and when they are not NaN they are the same double;
    absent references included. *)
Theorem distance_sym (p1 p2 : ptr Point) :
  is_nan (distance p1 p2) = is_nan (distance p2 p1) /\
  (is_nan (distance p1 p2) = false -> distance p1 p2 = distance p2 p1).
Proof.
  assert (H : distance p1 p2 = distance p2 p1).
  { destruct p1 as [|q1], p2 as [|q2]; try reflexivity.
    unfold distance.
    rewrite (fsub_square_swap (x q2) (x q1)).
    now rewrite (fsub_square_swap (y q2) (y q1)). }
  rewrite H. split; reflexivity.
Qed.

Lemma distance_sym_witness :
  let q1 := mkPoint (double_of_Z 1) (double_of_Z (-2)) in
  let q2 := mkPoint (double_of_Z 2) (double_of_Z (-1)) in
  distance (Ptr q1) (Ptr q2) = distance (Ptr q2) (Ptr q1).
Proof.
  intros q1 q2. apply (distance_sym (Ptr q1) (Ptr q2)). reflexivity.
Defined.

(** X11: a NaN in any coordinate of either point makes [distance] NaN. *)
Theorem distance_nan (q1 q2 : Point) :
  is_nan (x q1) || is_nan (y q1) || is_nan (x q2) || is_nan (y q2) = true ->
  distance (Ptr q1) (Ptr q2) = S754_nan.
Proof.
  assert (Hsub : forall a b, is_nan a || is_nan b = true ->
                             fmul (fsub a b) (fsub a b) = S754_nan).
  { intros a b H. destruct a, b; try discriminate H; reflexivity. }
  assert (Haddl : forall b, fadd S754_nan b = S754_nan)
    by (intros b; now destruct b).
  assert (Haddr : forall a, fadd a S754_nan = S754_nan)
    by (intros a; now destruct a).
  intros H. unfold distance.
  destruct (is_nan (x q1) || is_nan (x q2)) eqn:Hx.
  - rewrite (Hsub (x q2) (x q1)), Haddl; [reflexivity|].
    now rewrite orb_comm.
  - apply orb_false_elim in Hx as [Hx1 Hx2].
    rewrite Hx1, Hx2, orb_false_r in H. simpl in H.
    rewrite (Hsub (y q2) (y q1)), Haddr; [reflexivity|].
    now rewrite orb_comm.
Qed.

Lemma distance_nan_witness :
  distance (Ptr origin) (Ptr (mkPoint (double_of_Z 3) S754_nan)) = S754_nan.
Proof.
  apply (distance_nan origin (mkPoint (double_of_Z 3) S754_nan)).
  reflexivity.
Defined.

(** X12: [translate_point] keeps an absent reference absent, and on a point
    with finite coordinates and finite offsets it never produces NaN. *)
Theorem translate_point_finite (q : Point) (dx dy : double) :
  is_finite (x q) = true -> is_finite (y q) = true ->
  is_finite dx = true -> is_finite dy = true ->
  translate_point NULL dx dy = NULL /\
  exists q' : Point,
    translate_point (Ptr q) dx dy = Ptr q' /\
    is_nan (x q') = false /\ is_nan (y q') = false.
Proof.
  assert (Hadd : forall a b, is_finite a = true -> is_finite b = true ->
                             is_nan (fadd a b) = false).
  { intros a b Ha Hb.
    destruct a as [sa|sa| |sa ma ea], b as [sb|sb| |sb mb eb];
      try discriminate; try reflexivity.
    - now destruct sa, sb.
    - apply binary_normalize_not_nan. }
  intros Hx Hy Hdx Hdy. split; [reflexivity|].
  eexists. split; [reflexivity|]. simpl. split; apply Hadd; assumption.
Qed.

Lemma translate_point_finite_witness :
  translate_point
    (Ptr (mkPoint (double_of_Z 1) (double_of_Z 1)))
    (double_of_Z 2) (double_of_Z 3)
  = Ptr (mkPoint (double_of_Z 3) (double_of_Z 4)) /\
  exists q' : Point,
    translate_point
      (Ptr (mkPoint (double_of_Z 1) (double_of_Z 1)))
      (double_of_Z 2) (double_of_Z 3) = Ptr q' /\
    is_nan (x q') = false /\ is_nan (y q') = false.
Proof.
  split; [reflexivity|].
  apply (translate_point_finite (mkPoint (double_of_Z 1) (double_of_Z 1))
           (double_of_Z 2) (double_of_Z 3)); reflexivity.
Defined.

(** X13: translating by [(0.0, 0.0)] leaves every coordinate that is
    neither NaN nor [-0.0] unchanged, turns a [-0.0] in [x] or in [y] into
    [+0.0], and keeps a NaN coordinate NaN. *)
Theorem translate_point_zero (q : Point) :
  exists q' : Point,
    translate_point (Ptr q) pzero pzero = Ptr q' /\
    zero_shifted (x q) (x q') /\ zero_shifted (y q) (y q').
Proof.
  assert (Hadd : forall c, zero_shifted c (fadd c pzero)).
  { intros [[]|[]| |[] m e]; reflexivity. }
  eexists. split; [reflexivity|]. split; apply Hadd.
Qed.

(** ** Strings *)

Section StringFacts.

Lemma strlen_None_iff (s : list ascii) : strlen s = None <-> NUL ∉ s.
Proof.
  induction s as [|c s IH]; cbn [strlen].
  - split; [intros _; apply not_elem_of_nil|reflexivity].
  - rewrite not_elem_of_cons.
    destruct (Ascii.eqb_spec c NUL) as [->|Hc].
    + split; [discriminate|intros [H _]; congruence].
    + destruct (strlen s) as [n|]; cbn [mbind option_bind].
      * split; [discriminate|]. intros [_ H]. now apply IH in H.
      * split; [|reflexivity]. intros _. split; [congruence|now apply IH].
Qed.

Lemma reverse_string_None_iff (s : list ascii) :
  reverse_string (Ptr s) = None <-> NUL ∉ s.
Proof.
  split.
  - intros Hrun. destruct (strlen s) as [n|] eqn:Hn.
    + destruct (strlen_Some_inv s n Hn) as (s1 & rest & -> & Hs1 & _).
      destruct (reverse_string_terminated s1 rest Hs1) as [H _]. congruence.
    + now apply strlen_None_iff.
  - intros Hs. destruct s as [|c s]; [reflexivity|].
    apply strlen_None_iff in Hs as Hlen.
    apply not_elem_of_cons in Hs as [Hc _].
    unfold reverse_string. change (load (c :: s) 0) with (Some c).
    cbn [mbind option_bind].
    destruct (Ascii.eqb_spec c NUL) as [->|_]; [congruence|].
    now rewrite Hlen.
Qed.

End StringFacts.

(** X14: [string_length] and [reverse_string] run into the end of the
    storage exactly when it holds no terminator; on a terminated storage
    both complete. *)
Theorem string_functions_need_terminator (s : list ascii) :
  (string_length (Ptr s) = None <-> NUL ∉ s) /\
  (reverse_string (Ptr s) = None <-> NUL ∉ s).
Proof.
  split; [|apply reverse_string_None_iff].
  rewrite <- strlen_None_iff. unfold string_length.
  destruct (strlen s); cbn [mbind option_bind]; split; congruence.
Qed.

Lemma string_functions_need_terminator_witness :
  string_length (Ptr (chars "abc")) = None /\
  reverse_string (Ptr (chars "abc")) = None /\
  string_length (Ptr (chars "abc" ++ [NUL])) <> None.
Proof.
  destruct (string_functions_need_terminator (chars "abc")) as [Hlen Hrev].
  split; [apply Hlen; no_nul|]. split; [apply Hrev; no_nul|].
  intros H.
  apply (proj1 (string_functions_need_terminator (chars "abc" ++ [NUL]))) in H.
  apply H, elem_of_app. right. now apply list_elem_of_singleton.
Defined.

(** X15: [reverse_string] does not change what [string_length] returns,
    however long the content. *)
Theorem string_length_reverse_string (s rest : list ascii) :
  NUL ∉ s ->
  exists after : list ascii,
    reverse_string (Ptr (s ++ NUL :: rest)) = Some (Ptr after) /\
    string_length (Ptr after) = string_length (Ptr (s ++ NUL :: rest)).
Proof.
  intros Hs.
  destruct (reverse_string_terminated s rest Hs) as [Hrun _].
  eexists. split; [exact Hrun|].
  rewrite !string_length_terminated; [now rewrite reversed_prefix_length| |].
  - exact Hs.
  - intros H. apply Hs.
    now rewrite reversed_prefix_Permutation in H.
Qed.

Lemma string_length_reverse_string_witness :
  exists after : list ascii,
    reverse_string (Ptr (chars "abcd" ++ NUL :: chars "zz"))
      = Some (Ptr after) /\
    string_length (Ptr after)
      = string_length (Ptr (chars "abcd" ++ NUL :: chars "zz")).
Proof.
  apply (string_length_reverse_string (chars "abcd") (chars "zz")). no_nul.
Defined.

(** X16: [string_length] stops at the first terminator: what lies behind
    it in the storage, further terminators included, has no effect. *)
Theorem string_length_first_terminator (s rest1 rest2 : list ascii) :
  NUL ∉ s ->
  string_length (Ptr (s ++ NUL :: rest1))
    = string_length (Ptr (s ++ NUL :: rest2)).
Proof.
  intros Hs. now rewrite !string_length_terminated.
Qed.

Lemma string_length_first_terminator_witness :
  string_length (Ptr (chars "hel" ++ NUL :: chars "lo" ++ [NUL]))
    = string_length (Ptr (chars "hel" ++ [NUL])) /\
  string_length (Ptr (chars "hel" ++ [NUL])) = Some 3.
Proof.
  split; [|reflexivity].
  apply (string_length_first_terminator (chars "hel")). no_nul.
Defined.

(** X17: the text [get_version] returns is a proper C string of 14
    characters: it holds no terminator of its own, and [string_length] of it
    with its terminator is [14]. *)
Theorem get_version_length :
  (NUL ∉ chars get_version) /\
  string_length (Ptr (chars get_version ++ [NUL])) = Some 14.
Proof.
  split; [no_nul|reflexivity].
Qed.

(** ** Array operations *)

Section ArrayFacts.

Lemma for_loop_app {St : Type} (n m : nat) (i : Z)
    (body : Z -> St -> option St) (s : St) :
  for_loop (n + m) i body s
    = s' ← for_loop n i body s; for_loop m (i + Z.of_nat n) body s'.
Proof.
  revert i s. induction n as [|n IH]; intros i s.
  - cbn [Nat.add for_loop mbind option_bind].
    now replace (i + Z.of_nat 0) with i by lia.
  - cbn [Nat.add for_loop].
    destruct (body i s) as [t|]; cbn [mbind option_bind]; [|reflexivity].
    rewrite IH.
    now replace (i + 1 + Z.of_nat n) with (i + Z.of_nat (S n)) by lia.
Qed.

Lemma for_loop_preserves {St : Type} (P : St -> Prop)
    (body : Z -> St -> option St) :
  (forall j t t', P t -> body j t = Some t' -> P t') ->
  forall (n : nat) (i : Z) (s t : St),
    P s -> for_loop n i body s = Some t -> P t.
Proof.
  intros Hbody. induction n as [|n IH]; intros i s t Hs; cbn [for_loop].
  - now intros [= <-].
  - destruct (body i s) as [u|] eqn:Hu; cbn [mbind option_bind];
      [|discriminate].
    apply IH. exact (Hbody i s u Hs Hu).
Qed.

(** A loop whose body fails at the index that follows the first [n] trips
    fails as a whole when it is asked for more than [n] trips. *)
Lemma for_upto_overrun {St : Type} (P : St -> Prop) (n : nat) (bound : Z)
    (body : Z -> St -> option St) (s : St) :
  Z.of_nat n < bound ->
  P s ->
  (forall j t t', P t -> body j t = Some t' -> P t') ->
  (forall t, P t -> body (Z.of_nat n) t = None) ->
  for_upto bound body s = None.
Proof.
  intros Hn Hs Hbody Hfail. unfold for_upto.
  replace (Z.to_nat bound) with (n + S (Z.to_nat bound - S n))%nat by lia.
  rewrite for_loop_app.
  destruct (for_loop n 0 body s) as [t|] eqn:Ht; cbn [mbind option_bind];
    [|reflexivity].
  cbn [for_loop]. rewrite Z.add_0_l, Hfail; [reflexivity|].
  exact (for_loop_preserves P body Hbody n 0 s t Hs Ht).
Qed.

Lemma load_beyond {A : Type} (a : list A) (i : Z) :
  Z.of_nat (length a) <= i -> load a i = None.
Proof.
  intros Hi. unfold load. destruct (Z.ltb_spec i 0); [reflexivity|].
  apply lookup_ge_None_2. lia.
Qed.

Lemma store_length {A : Type} (a a' : list A) (i : Z) (v : A) :
  store a i v = Some a' -> length a' = length a.
Proof.
  unfold store. destruct (_ && _); [|discriminate].
  intros [= <-]. apply length_insert.
Qed.

Lemma sum_array_full (a : list Z) :
  sum_array (Ptr a) (Z.of_nat (length a)) = Some (wrap_int (Zsum a)).
Proof.
  unfold sum_array. destruct (Z.leb_spec (Z.of_nat (length a)) 0) as [H|H].
  - destruct a; [reflexivity|simpl in H; lia].
  - rewrite sum_array_loop by lia.
    now rewrite Nat2Z.id, take_ge by lia.
Qed.

Lemma wrap_int_add z1 z2 :
  wrap_int (wrap_int z1 + wrap_int z2) = wrap_int (z1 + z2).
Proof.
  rewrite wrap_int_add_l, (Z.add_comm z1), wrap_int_add_l.
  f_equal. lia.
Qed.

Lemma wrap_int_double_sum (l : list Z) :
  wrap_int (Zsum (map (fun e => wrap_int (e * 2)) l)) = wrap_int (2 * Zsum l).
Proof.
  induction l as [|v l IH]; [reflexivity|].
  cbn [map]. unfold Zsum in *. cbn [foldr].
  rewrite wrap_int_add_l, Z.add_comm, <- wrap_int_add_l, IH, wrap_int_add_l.
  f_equal. lia.
Qed.

Lemma wrap_int_even z : Z.even z = true -> Z.even (wrap_int z) = true.
Proof.
  intros Hz. unfold wrap_int.
  pose proof (Z.div_mod (z + 2 ^ 31) (2 ^ 32) ltac:(lia)) as H.
  replace ((z + 2 ^ 31) mod 2 ^ 32 - 2 ^ 31)
    with (z + 2 * (- 2 ^ 31 * ((z + 2 ^ 31) / 2 ^ 32))) by lia.
  now rewrite Z.even_add_mul_2.
Qed.

Lemma lookup_map {A B : Type} (f : A -> B) (l : list A) (i : nat) :
  map f l !! i = f <$> l !! i.
Proof.
  revert i. induction l as [|v l IH]; intros [|i]; cbn; auto.
Qed.

End ArrayFacts.

(** X18: when the mathematical sum of the first [size] elements fits in an
    [int], [sum_array] returns it exactly, even where sums on the way
    overflow. *)
Theorem sum_array_exact (a : list Z) (size : Z) :
  0 < size <= Z.of_nat (length a) ->
  in_int (Zsum (take (Z.to_nat size) a)) ->
  sum_array (Ptr a) size = Some (Zsum (take (Z.to_nat size) a)).
Proof.
  intros Hsize Hfit. unfold sum_array.
  destruct (Z.leb_spec size 0); [lia|].
  rewrite sum_array_loop by lia. now rewrite wrap_int_id.
Qed.

Lemma sum_array_exact_witness :
  sum_array (Ptr [INT_MAX; 1; -1; 99]) 2 = Some INT_MIN /\
  sum_array (Ptr [INT_MAX; 1; -1; 99]) 3 = Some INT_MAX.
Proof.
  split; [reflexivity|].
  rewrite (sum_array_exact [INT_MAX; 1; -1; 99] 3).
  - reflexivity.
  - simpl. lia.
  - unfold in_int, INT_MIN, INT_MAX. simpl. lia.
Defined.

(** X19: asked for more elements than the array holds, [sum_array] and
    [double_array] read past its end. *)
Theorem array_overrun (a : list Z) (size : Z) :
  Z.of_nat (length a) < size ->
  sum_array (Ptr a) size = None /\ double_array (Ptr a) size = None.
Proof.
  intros Hsize. unfold sum_array, double_array.
  destruct (Z.leb_spec size 0); [lia|]. split.
  - apply (for_upto_overrun (fun _ => True) (length a)); auto.
    intros t _. now rewrite load_beyond.
  - rewrite (for_upto_overrun (fun t => length t = length a) (length a));
      auto.
    + intros j t t' Ht. destruct (load t j); cbn [mbind option_bind];
        [|discriminate].
      intros Hst%store_length. congruence.
    + intros t Ht. rewrite load_beyond; [reflexivity|lia].
Qed.

Lemma array_overrun_witness :
  sum_array (Ptr [1; 2]) 3 = None /\ double_array (Ptr [1; 2]) 3 = None.
Proof.
  apply (array_overrun [1; 2] 3). simpl. lia.
Defined.

(** X20: the sum of a whole array made of two parts is [add] of the sums
    of the parts. *)
Theorem sum_array_app (a b : list Z) :
  exists sa sb : Z,
    sum_array (Ptr a) (Z.of_nat (length a)) = Some sa /\
    sum_array (Ptr b) (Z.of_nat (length b)) = Some sb /\
    sum_array (Ptr (a ++ b)) (Z.of_nat (length (a ++ b))) = Some (add sa sb).
Proof.
  exists (wrap_int (Zsum a)), (wrap_int (Zsum b)).
  rewrite !sum_array_full. repeat split.
  unfold add. now rewrite wrap_int_add, Zsum_app.
Qed.

(** X21: after [double_array] on the first [size] elements, [sum_array] of
    those elements is twice the sum they had, reduced to [int]. *)
Theorem sum_array_double_array (a : list Z) (size : Z) :
  0 < size <= Z.of_nat (length a) ->
  exists a' : list Z,
    double_array (Ptr a) size = Some (Ptr a') /\
    sum_array (Ptr a') size
      = Some (wrap_int (2 * Zsum (take (Z.to_nat size) a))).
Proof.
  intros Hsize. unfold double_array, sum_array.
  destruct (Z.leb_spec size 0); [lia|].
  rewrite double_array_loop by lia. cbn [mbind option_bind].
  eexists. split; [reflexivity|].
  assert (Hlen : length (map (fun e => wrap_int (e * 2))
                           (take (Z.to_nat size) a)) = Z.to_nat size)
    by (rewrite length_map, length_take; lia).
  rewrite sum_array_loop by (rewrite length_app, Hlen; lia).
  rewrite take_app_length' by (symmetry; exact Hlen).
  now rewrite wrap_int_double_sum.
Qed.

Lemma sum_array_double_array_witness :
  exists a' : list Z,
    double_array (Ptr [2 ^ 30; 3; 5]) 2 = Some (Ptr a') /\
    sum_array (Ptr a') 2 = Some (wrap_int (2 * Zsum (take 2 [2 ^ 30; 3; 5]))).
Proof.
  apply (sum_array_double_array [2 ^ 30; 3; 5] 2). simpl. lia.
Defined.

(** X22: [double_array] keeps the length of the array, and every element
    it has doubled is an even [int]. *)
Theorem double_array_even (a : list Z) (size : Z) :
  0 < size <= Z.of_nat (length a) ->
  exists a' : list Z,
    double_array (Ptr a) size = Some (Ptr a') /\
    length a' = length a /\
    forall (i : nat) (e : Z),
      (i < Z.to_nat size)%nat -> a' !! i = Some e ->
      in_int e /\ Z.even e = true.
Proof.
  intros Hsize. unfold double_array.
  destruct (Z.leb_spec size 0); [lia|].
  rewrite double_array_loop by lia. cbn [mbind option_bind].
  eexists. split; [reflexivity|].
  assert (Hlen : length (map (fun e => wrap_int (e * 2))
                           (take (Z.to_nat size) a)) = Z.to_nat size)
    by (rewrite length_map, length_take; lia).
  split.
  - rewrite length_app, Hlen, length_drop. lia.
  - intros i e Hi. rewrite lookup_app_l by lia. rewrite lookup_map.
    destruct (take (Z.to_nat size) a !! i) as [v|]; [|discriminate].
    intros [= <-]. split; [apply wrap_int_range|].
    apply wrap_int_even. now rewrite Z.even_mul, orb_true_r.
Qed.

Lemma double_array_even_witness :
  exists a' : list Z,
    double_array (Ptr [7; INT_MAX; 1]) 2 = Some (Ptr a') /\
    length a' = 3%nat /\
    forall (i : nat) (e : Z),
      (i < 2)%nat -> a' !! i = Some e -> in_int e /\ Z.even e = true.
Proof.
  apply (double_array_even [7; INT_MAX; 1] 2). simpl. lia.
Defined.

(** X23: [double_array] applied twice multiplies the first [size] elements
    by four, reduced to [int]. *)
Theorem double_array_twice (a : list Z) (size : Z) :
  0 < size <= Z.of_nat (length a) ->
  exists a1 : list Z,
    double_array (Ptr a) size = Some (Ptr a1) /\
    double_array (Ptr a1) size
      = Some (Ptr (map (fun e => wrap_int (e * 4)) (take (Z.to_nat size) a)
                   ++ drop (Z.to_nat size) a)).
Proof.
  intros Hsize. unfold double_array.
  destruct (Z.leb_spec size 0); [lia|].
  rewrite double_array_loop by lia. cbn [mbind option_bind].
  eexists. split; [reflexivity|].
  assert (Hlen : length (map (fun e => wrap_int (e * 2))
                           (take (Z.to_nat size) a)) = Z.to_nat size)
    by (rewrite length_map, length_take; lia).
  rewrite double_array_loop by (rewrite length_app, Hlen; lia).
  cbn [mbind option_bind].
  rewrite take_app_length', drop_app_length' by (symmetry; exact Hlen).
  rewrite map_map. do 3 f_equal.
  apply map_ext. intros e. apply wrap_int_congr.
  rewrite <- Zmult_mod_idemp_l, wrap_int_eqm, Zmult_mod_idemp_l.
  f_equal. lia.
Qed.

Lemma double_array_twice_witness :
  exists a1 : list Z,
    double_array (Ptr [3; 2 ^ 30; 8]) 2 = Some (Ptr a1) /\
    double_array (Ptr a1) 2 = Some (Ptr [12; 0; 8]).
Proof.
  apply (double_array_twice [3; 2 ^ 30; 8] 2). simpl. lia.
Defined.

(** ** Callbacks *)

(** X24: two calls in a row invoke their callbacks in call order, each
    once, the second on the state the first has left; a call without
    callback in between adds nothing. *)
Theorem apply_operation_sequence {W : Type} (f g : math_callback W)
    (a1 b1 a2 b2 a3 b3 : Z) (w : W) (log : list (Z * Z)) :
  let c1 := apply_operation a1 b1 (Ptr (logged f)) (log, w) in
  let c2 := apply_operation a3 b3 NULL (snd c1) in
  let c3 := apply_operation a2 b2 (Ptr (logged g)) (snd c2) in
  fst c1 = fst (f a1 b1 w) /\
  fst c2 = 0 /\
  fst c3 = fst (g a2 b2 (snd (f a1 b1 w))) /\
  snd c3 = (log ++ [(a1, b1); (a2, b2)], snd (g a2 b2 (snd (f a1 b1 w)))).
Proof.
  simpl. destruct (f a1 b1 w) as [r1 w1]. simpl.
  destruct (g a2 b2 w1) as [r2 w2]. simpl.
  now rewrite <- app_assoc.
Qed.

(** ** Struct operations, infinite coordinates *)

Section InfiniteDistance.

(** The square of an infinite difference is [+inf], and [+inf] absorbs any
    square that is not NaN. *)
Lemma fsub_inf_square a b :
  is_inf a && is_finite b || is_finite a && is_inf b = true ->
  fmul (fsub a b) (fsub a b) = S754_infinity false.
Proof.
  destruct a as [sa|sa| |sa ma ea], b as [sb|sb| |sb mb eb];
    try discriminate; intros _; simpl; try (now destruct sa);
    now destruct sb.
Qed.

Lemma fsub_finite_square_signed a b :
  is_finite a = true -> is_finite b = true ->
  signed false (fmul (fsub a b) (fsub a b)) = true.
Proof.
  intros Ha Hb. now apply fmul_square_signed, fsub_finite_not_nan.
Qed.

Lemma fadd_inf_signed a :
  signed false a = true ->
  fadd (S754_infinity false) a = S754_infinity false /\
  fadd a (S754_infinity false) = S754_infinity false.
Proof.
  destruct a as [[]|[]| |[] m e]; try discriminate; intros _;
    split; reflexivity.
Qed.

End InfiniteDistance.

(** X25: when the points differ by an infinite amount in one coordinate
    (an infinite coordinate against a finite one) and have finite values in
    the other, [distance] is [+inf]. *)
Theorem distance_infinite (q1 q2 : Point) :
  (is_inf (x q2) && is_finite (x q1) || is_finite (x q2) && is_inf (x q1)
     = true /\
   is_finite (y q1) = true /\ is_finite (y q2) = true) \/
  (is_inf (y q2) && is_finite (y q1) || is_finite (y q2) && is_inf (y q1)
     = true /\
   is_finite (x q1) = true /\ is_finite (x q2) = true) ->
  distance (Ptr q1) (Ptr q2) = S754_infinity false.
Proof.
  unfold distance. intros [(Hinf & Hf1 & Hf2)|(Hinf & Hf1 & Hf2)].
  - rewrite (fsub_inf_square _ _ Hinf).
    destruct (fadd_inf_signed _ (fsub_finite_square_signed _ _ Hf2 Hf1))
      as [-> _].
    reflexivity.
  - rewrite (fsub_inf_square _ _ Hinf).
    destruct (fadd_inf_signed _ (fsub_finite_square_signed _ _ Hf2 Hf1))
      as [_ ->].
    reflexivity.
Qed.

Lemma distance_infinite_witness :
  distance (Ptr (mkPoint (S754_infinity true) (double_of_Z 2)))
           (Ptr (mkPoint (double_of_Z 1) (double_of_Z 5)))
  = S754_infinity false.
Proof.
  apply (distance_infinite (mkPoint (S754_infinity true) (double_of_Z 2))
           (mkPoint (double_of_Z 1) (double_of_Z 5))).
  left. repeat split.
Defined.
